(** * girc: connection loops, rate limiter and handler registry

    A shallow embedding of the parts of [conn.go] (rate limiter, read loop,
    keepalive loop, connect handshake) and [handler.go] (the [Caller]
    registry, temporary handlers, [RunHandlers]) that the specification
    talks about, followed by the theorems about them (Part II) and by
    further properties of the code (Part III).

    Conventions.
    - A Go [int64] / [time.Duration] is a [Z] together with the explicit
      two's-complement wrap-around [Dur.wrap]; Go's [/] on integers is
      truncated division, [Z.quot].
    - A [time.Time] is a [Z] counting nanoseconds on an unbounded time
      line; [Time.Sub] saturates the way the Go library does.
    - A Go [map[string]map[string]Handler] is a [gmap string (gmap string H)].
    - Goroutines, channels and locks are modelled by explicit state:
      a channel is the list of values sent on it, a lock is a record of
      who holds it, and a function that may block or crash returns an
      outcome type saying so.
    - Logging ([c.debug], [Config.Out]) is left out. *)

From Stdlib Require Import ZArith String Ascii List Bool Lia.
From stdpp Require Import base option list strings gmap fin_maps.

Local Open Scope Z_scope.

(* ===================================================================== *)
(** * Part I: the program                                                 *)
(* ===================================================================== *)

(* --------------------------------------------------------------------- *)
(** ** Durations: [int64] nanoseconds with wrap-around                    *)
(* --------------------------------------------------------------------- *)

Module Dur.

Definition min_int64 : Z := - 2 ^ 63.
Definition max_int64 : Z := 2 ^ 63 - 1.

Definition in_range (z : Z) : Prop := min_int64 <= z <= max_int64.

(** Two's-complement reduction of a mathematical integer to [int64]. *)
Definition wrap (z : Z) : Z := (z + 2 ^ 63) mod 2 ^ 64 - 2 ^ 63.

Definition add (a b : Z) : Z := wrap (a + b).
Definition sub (a b : Z) : Z := wrap (a - b).
Definition mul (a b : Z) : Z := wrap (a * b).
(** Go's integer division truncates toward zero. *)
Definition div (a b : Z) : Z := wrap (Z.quot a b).

Definition Second : Z := 1000000000.

(** [time.Time.Sub]: the difference of two instants, saturated to the
    range of [Duration] ("If the result exceeds the maximum (or minimum)
    value that can be stored in a Duration, the maximum (or minimum)
    duration will be returned"). *)
Definition time_sub (t u : Z) : Z :=
  if t - u <? min_int64 then min_int64
  else if max_int64 <? t - u then max_int64
  else t - u.

End Dur.

(* --------------------------------------------------------------------- *)
(** ** The connection record and the rate limiter ([conn.go])             *)
(* --------------------------------------------------------------------- *)

(** The fields of [ircConn] that the loops read and write.  The socket and
    the buffered reader/writer are represented by the scripts the loops
    below consume.  The lock [mu] is modelled where a claim depends on it
    (the keepalive loop); the critical sections of [rate] are opened and
    closed within the call, so a single call is one step on this record. *)
Record ircConn := mkConn {
  lastWrite  : Z;   (* time.Time *)
  writeDelay : Z;   (* time.Duration *)
  connected  : bool;
  lastPing   : Z;   (* time.Time *)
  lastPong   : Z;   (* time.Time *)
}.

Definition set_writeDelay (d : Z) (c : ircConn) : ircConn :=
  mkConn (lastWrite c) d (connected c) (lastPing c) (lastPong c).

Definition set_lastPing (t : Z) (c : ircConn) : ircConn :=
  mkConn (lastWrite c) (writeDelay c) (connected c) t (lastPong c).

Definition set_lastPong (t : Z) (c : ircConn) : ircConn :=
  mkConn (lastWrite c) (writeDelay c) (connected c) (lastPing c) t.

(** [func (c *ircConn) rate(chars int) time.Duration]; [now] is the value
    [time.Now()] returns inside the call.  The result is the returned wait
    together with the updated connection. *)
Definition rate (c : ircConn) (chars : Z) (now : Z) : Z * ircConn :=
  (* _time := time.Second + ((time.Duration(chars) * time.Second) / 100) *)
  let _time := Dur.add Dur.Second (Dur.div (Dur.mul chars Dur.Second) 100) in
  (* c.writeDelay += _time - time.Now().Sub(c.lastWrite) *)
  let wd := Dur.add (writeDelay c) (Dur.sub _time (Dur.time_sub now (lastWrite c))) in
  (* ; c.writeDelay < 0 { c.writeDelay = 0 } *)
  let wd := if wd <? 0 then 0 else wd in
  let c' := set_writeDelay wd c in
  (* if c.writeDelay > (8 * time.Second) { return _time }; return 0 *)
  if 8 * Dur.Second <? writeDelay c' then (_time, c') else (0, c').

(** The limiter as the specification words it, in the same [Duration]
    arithmetic: the cost is [1s + n*1s/100], the debt becomes
    [max(0, debt + cost - (now - lastWrite))], and the wait is the cost
    when the debt exceeds eight seconds. *)
Module RateSpec.
Definition cost (n : Z) : Z :=
  Dur.add Dur.Second (Dur.div (Dur.mul n Dur.Second) 100).
Definition debt (old n now lastW : Z) : Z :=
  Z.max 0 (Dur.sub (Dur.add old (cost n)) (Dur.time_sub now lastW)).
Definition wait (old n now lastW : Z) : Z :=
  if 8 * Dur.Second <? debt old n now lastW then cost n else 0.
End RateSpec.

(* --------------------------------------------------------------------- *)
(** ** Events, errors, and what lives outside the two source files        *)
(* --------------------------------------------------------------------- *)

(** Modelled from the spec: the [Event] type of the message codec, which
    is not among the sources.  It has the fields [conn.go] and
    [handler.go] read or set: the command name, the parameters, the
    trailing text and the "sensitive" flag. *)
Record Event := mkEvent {
  Command   : string;
  Params    : list string;
  Trailing  : string;
  Sensitive : bool;
}.

(** Modelled from the spec: the decoded sub-protocol message ("delivered
    to a dedicated CTCP handler registry keyed by CTCP command name"); the
    type and its decoder are not among the sources. *)
Record CTCPEvent := mkCTCP {
  ctcp_Command : string;
  ctcp_Text    : string;
}.

Inductive error :=
| ErrTimedOut                 (* var ErrTimedOut = errors.New("timed out ...") *)
| ErrOther (msg : string).    (* any other error value *)

(** [Config], with the options the modelled code reads.  [RecoverFunc] is
    [true] when a recovery callback is configured (non-nil). *)
Record Config := mkConfig {
  Server      : string;
  Password    : string;
  Nick        : string;
  User        : string;
  Name        : string;
  AllowFlood  : bool;
  PingDelay   : Z;      (* time.Duration *)
  RecoverFunc : bool;
}.

Definition set_Name (n : string) (cf : Config) : Config :=
  mkConfig (Server cf) (Password cf) (Nick cf) (User cf) n
           (AllowFlood cf) (PingDelay cf) (RecoverFunc cf).

(** Library functions, protocol constants and collaborators that the two
    source files call but do not define. *)
Class Externals := {
  (** [strings.ToUpper] *)
  ToUpper     : string -> string;
  (** the command constants of the protocol *)
  ALLEVENTS   : string;
  INITIALIZED : string;
  PASS        : string;
  NICK        : string;
  USER        : string;
  (** [decodeCTCP]: [None] is the nil result *)
  decodeCTCP  : Event -> option CTCPEvent;
  (** the method [Server] of [Client]: the address to dial *)
  ServerAddr  : Config -> string;
  (** the method [listCAP] of [Client]: the messages it writes to the
      outbound queue *)
  listCAP     : Config -> list Event;
}.

(* --------------------------------------------------------------------- *)
(** ** Byte strings                                                       *)
(* --------------------------------------------------------------------- *)

(** [strings.IndexByte]: the index of the first [c] in [s], or [-1]. *)
Fixpoint IndexByte (s : string) (c : ascii) : Z :=
  match s with
  | EmptyString => -1
  | String a s' =>
      if Ascii.eqb a c then 0
      else let i := IndexByte s' c in if i <? 0 then -1 else i + 1
  end.

(** The slices [s[:i]] and [s[i:]], for [i <= len(s)]. *)
Fixpoint slice_to (s : string) (i : nat) : string :=
  match i, s with
  | S k, String a s' => String a (slice_to s' k)
  | _, _ => EmptyString
  end.

Fixpoint slice_from (s : string) (i : nat) : string :=
  match i, s with
  | S k, String _ s' => slice_from s' k
  | _, _ => s
  end.

(** [s[i]] for [i < len(s)]. *)
Definition byte_at (s : string) (i : nat) : ascii :=
  match String.get i s with Some a => a | None => Ascii.zero end.

(** The ASCII path of [strings.ToUpper], used to instantiate [Externals]
    at concrete inputs: [a]..[z] become [A]..[Z], other bytes stay. *)
Definition upper_byte (a : ascii) : ascii :=
  let n := nat_of_ascii a in
  if ((97 <=? n) && (n <=? 122))%nat then ascii_of_nat (n - 32) else a.

Fixpoint ascii_upper (s : string) : string :=
  match s with
  | EmptyString => EmptyString
  | String a s' => String (upper_byte a) (ascii_upper s')
  end.

(** The instance used at concrete inputs: the constants are those of the
    protocol, no message decodes as CTCP, and [listCAP] asks for the
    capability list. *)
Definition ascii_externals : Externals := {|
  ToUpper     := ascii_upper;
  ALLEVENTS   := "*";
  INITIALIZED := "INIT";
  PASS        := "PASS";
  NICK        := "NICK";
  USER        := "USER";
  decodeCTCP  := fun _ => None;
  ServerAddr  := Server;
  listCAP     := fun _ => [mkEvent "CAP" ["LS"; "302"] "" false];
|}.

(* --------------------------------------------------------------------- *)
(** ** The handler registry ([handler.go])                                *)
(* --------------------------------------------------------------------- *)

(** What running caller-supplied code can do to the control flow of the
    goroutine it runs in: return, or panic. *)
Inductive outcome := Returns | Panics.

(** A temporary handler returns a boolean ("remove me") or panics. *)
Inductive tmp_outcome := TmpReturns (remove : bool) | TmpPanics.

(** The values stored in the registry.  [Handler] is an interface; the
    values that reach the maps are a [HandlerFunc] around a caller's
    function ([Add], [AddHandler]) and the two closures that [AddBg] and
    [AddTmp] build, represented by what they capture.  A [done] channel is
    named by its index in the channel store below. *)
Inductive Handler :=
| HandlerFunc (f : Event -> outcome)
| BgHandler (f : Event -> outcome)
| TmpHandler (f : Event -> tmp_outcome) (cuid : string) (done : nat).

(** Goroutines that a handler or [AddTmp] leaves running. *)
Inductive task :=
| BgTask (f : Event -> outcome) (ev : Event)
| TmpTask (f : Event -> tmp_outcome) (cuid : string) (done : nat) (ev : Event)
| DeadlineTask (deadline : Z) (cuid : string) (done : nat).

Abbreviation handler_map := (gmap string (gmap string Handler)).

(** [type Caller struct].  [wg] is the counter of the wait group. *)
Record Caller := mkCaller {
  external : handler_map;
  internal : handler_map;
  wg       : nat;
}.

Definition newCaller : Caller := mkCaller ∅ ∅ 0%nat.

(** [m[cmd][uid]], with [None] when either lookup misses. *)
Definition lookup2 (m : handler_map) (cmd uid : string) : option Handler :=
  match m !! cmd with
  | Some inner => inner !! uid
  | None => None
  end.

(** The global source of [math/rand]: the stream of raw values still to
    be drawn.  [rand.Int63] returns a non-negative 63-bit integer. *)
Definition rng := nat -> Z.

Definition Int63 (g : rng) : Z := g 0%nat mod 2 ^ 63.
Definition rng_next (g : rng) : rng := fun i => g (S i).

Definition letterBytes : string :=
  "abcdefghijklmnopqrstuvwxyzABCDEFGHIJKLMNOPQRSTUVWXYZ"%string.

(** The loop of [cuid] that fills [b]:
    [b[i] = letterBytes[rand.Int63()%int64(len(letterBytes))]]. *)
Fixpoint rand_letters (n : nat) (g : rng) : string * rng :=
  match n with
  | O => (EmptyString, g)
  | S k =>
      let a := byte_at letterBytes
                 (Z.to_nat (Z.rem (Int63 g) (Z.of_nat (String.length letterBytes)))) in
      let '(s, g') := rand_letters k (rng_next g) in
      (String a s, g')
  end.

(** [func (c *Caller) cuid(cmd string, n int) (cuid, uid string)] *)
Definition cuid (cmd : string) (n : nat) (g : rng) : (string * string) * rng :=
  let '(b, g') := rand_letters n g in
  ((cmd +:+ ":" +:+ b, b), g').

(** [func (c *Caller) cuidToID(input string) (cmd, uid string)] *)
Definition cuidToID (input : string) : string * string :=
  let i := IndexByte input ":"%char (* 0x3A *) in
  if i <? 0 then (EmptyString, EmptyString)
  else (slice_to input (Z.to_nat i), slice_from input (Z.to_nat (i + 1))).

(** [func (c *Caller) remove(cuid string) (success bool)] *)
Definition remove (cuid : string) (c : Caller) : bool * Caller :=
  let '(cmd, uid) := cuidToID cuid in
  if ((String.length cmd =? 0) || (String.length uid =? 0))%nat then (false, c)
  else
    match external c !! cmd with
    | None => (false, c)
    | Some inner =>
        match inner !! uid with
        | None => (false, c)
        | Some _ =>
            (* delete(c.external[cmd], uid) *)
            (true, mkCaller (<[cmd := delete uid inner]> (external c))
                            (internal c) (wg c))
        end
    end.

(** [func (c *Caller) Remove(cuid string) (success bool)]: [remove] under
    the exclusive lock. *)
Definition Remove (cuid : string) (c : Caller) : bool * Caller := remove cuid c.

(** [c.m[cmd][uid] = handler], creating [c.m[cmd]] when it is missing. *)
Definition store (m : handler_map) (cmd uid : string) (h : Handler) : handler_map :=
  let inner := match m !! cmd with Some inner => inner | None => ∅ end in
  <[cmd := <[uid := h]> inner]> m.

Section Registry.
Context {X : Externals}.

(** [func (c *Caller) register(internal bool, cmd string, handler Handler)
    (cuid string)] *)
Definition register (is_internal : bool) (cmd : string) (handler : Handler)
    (c : Caller) (g : rng) : string * Caller * rng :=
  let cmd := ToUpper cmd in
  if is_internal then
    let '((cuid, uid), g') := cuid cmd 20 g in
    (cuid, mkCaller (external c) (store (internal c) cmd uid handler) (wg c), g')
  else
    let '((cuid, uid), g') := cuid cmd 20 g in
    (cuid, mkCaller (store (external c) cmd uid handler) (internal c) (wg c), g').

(** [sregister]: [register] under the exclusive lock. *)
Definition sregister (is_internal : bool) (cmd : string) (handler : Handler)
    (c : Caller) (g : rng) : string * Caller * rng :=
  register is_internal cmd handler c g.

Definition AddHandler (cmd : string) (handler : Handler) (c : Caller) (g : rng) :=
  sregister false cmd handler c g.

Definition Add (cmd : string) (handler : Event -> outcome) (c : Caller) (g : rng) :=
  sregister false cmd (HandlerFunc handler) c g.

Definition AddBg (cmd : string) (handler : Event -> outcome) (c : Caller) (g : rng) :=
  sregister false cmd (BgHandler handler) c g.

End Registry.

(** The store of [done] channels: entry [i] counts the calls of [close]
    on channel [i].  A channel is open at [0] and closed at [1]; a second
    [close] panics ("close of closed channel"), which the count [2] and
    above records. *)
Abbreviation chan_store := (list nat).

Definition make_chan (chs : chan_store) : nat * chan_store :=
  (length chs, chs ++ [0%nat]).

Definition close_chan (i : nat) (chs : chan_store) : chan_store := alter S i chs.

Definition closes (i : nat) (chs : chan_store) : nat := default 0%nat (chs !! i).

(** What a call of [AddTmp] returns and leaves behind: the two results
    [cuid] and [done], the deadline goroutine when one is started, and the
    new registry, random source and channel store. *)
Record tmp_result := mkTmp {
  tmp_cuid    : string;
  tmp_done    : nat;
  tmp_spawned : list task;
  tmp_caller  : Caller;
  tmp_rng     : rng;
  tmp_chans   : chan_store;
}.

(** [func (c *Caller) AddTmp(cmd string, deadline time.Duration, handler
    func(client *Client, event Event) bool) (cuid string, done chan struct{})] *)
Definition AddTmp (cmd : string) (deadline : Z) (handler : Event -> tmp_outcome)
    (c : Caller) (g : rng) (chs : chan_store) : tmp_result :=
  let '((cuid, uid), g') := cuid cmd 20 g in
  let '(done, chs') := make_chan chs in
  let c' := mkCaller (store (external c) cmd uid (TmpHandler handler cuid done))
                     (internal c) (wg c) in
  let spawned := if 0 <? deadline then [DeadlineTask deadline cuid done] else [] in
  mkTmp cuid done spawned c' g' chs'.

(** [if ok := c.Remove(cuid); ok { close(done) }]: the tail of both
    goroutines of [AddTmp]. *)
Definition remove_and_close (cuid : string) (done : nat)
    (st : Caller * chan_store) : Caller * chan_store :=
  let '(ok, c') := Remove cuid st.1 in
  if ok then (c', close_chan done st.2) else (c', st.2).

(** The goroutine the temporary handler starts once [handler(client,
    event)] has returned [remove]. *)
Definition tmp_goroutine (remove : bool) (cuid : string) (done : nat)
    (st : Caller * chan_store) : Caller * chan_store :=
  if remove then remove_and_close cuid done st else st.

(** The deadline goroutine once [time.After(deadline)] has fired. *)
Definition deadline_goroutine (cuid : string) (done : nat)
    (st : Caller * chan_store) : Caller * chan_store :=
  remove_and_close cuid done st.

(** The events that can ask for the removal of one temporary handler. *)
Inductive trigger :=
| HandlerReturned (remove : bool)   (* one run of the handler returned *)
| DeadlineFired                     (* the deadline goroutine woke up *)
| ExplicitRemove.                   (* some caller ran [Remove(cuid)] *)

(** One trigger, for the handler registered with [deadline]; there is no
    deadline goroutine unless [deadline > 0]. *)
Definition fire (deadline : Z) (cuid : string) (done : nat) (t : trigger)
    (st : Caller * chan_store) : Caller * chan_store :=
  match t with
  | HandlerReturned remove => tmp_goroutine remove cuid done st
  | DeadlineFired =>
      if 0 <? deadline then deadline_goroutine cuid done st else st
  | ExplicitRemove => ((Remove cuid st.1).2, st.2)
  end.

Definition fire_all (deadline : Z) (cuid : string) (done : nat)
    (ts : list trigger) (st : Caller * chan_store) : Caller * chan_store :=
  fold_left (fun s t => fire deadline cuid done t s) ts st.

(** Whether a trigger asks for removal at all. *)
Definition requests (deadline : Z) (t : trigger) : bool :=
  match t with
  | HandlerReturned remove => remove
  | DeadlineFired => 0 <? deadline
  | ExplicitRemove => true
  end.

(* --------------------------------------------------------------------- *)
(** ** The client and the dispatcher ([RunHandlers], [exec])              *)
(* --------------------------------------------------------------------- *)

(** The fields of [Client] that the modelled code uses.  The channels
    [tx] and [rx] are the lists of the values sent on them so far. *)
Record Client := mkClient {
  config   : Config;                 (* c.Config *)
  Handlers : Caller;                 (* c.Handlers *)
  conn     : option ircConn;         (* c.conn *)
  tx       : list Event;             (* c.tx *)
  rx       : list (option Event);    (* c.rx; [None] is a nil event *)
}.

Definition set_config (cf : Config) (c : Client) : Client :=
  mkClient cf (Handlers c) (conn c) (tx c) (rx c).

Definition set_conn (k : ircConn) (c : Client) : Client :=
  mkClient (config c) (Handlers c) (Some k) (tx c) (rx c).

(** [func (c *Client) write(event *Event)]: [c.tx <- event]. *)
Definition write (event : Event) (c : Client) : Client :=
  mkClient (config c) (Handlers c) (conn c) (tx c ++ [event]) (rx c).

(** [Execute] on a stored handler: what the calling goroutine sees, and
    the goroutines the handler starts.  The closures of [AddBg] and
    [AddTmp] only start a goroutine and return.  The goroutines are
    listed, not run: [Returns] says that the closure came back to the
    calling goroutine, not that the caller's function did not panic in
    its own goroutine, where a panic is recovered only if
    [Config.RecoverFunc] is set and ends the process otherwise. *)
Definition Execute (h : Handler) (ev : Event) : outcome * list task :=
  match h with
  | HandlerFunc f => (f ev, [])
  | BgHandler f => (Returns, [BgTask f ev])
  | TmpHandler f cuid done => (Returns, [TmpTask f cuid done ev])
  end.

Definition is_panic (o : outcome) : bool :=
  match o with Panics => true | Returns => false end.

(** The entries [for cuid := range m[command]] visits (Go fixes no order;
    nothing below depends on the one [map_to_list] picks). *)
Definition handlers_of (m : handler_map) (command : string) : list (string * Handler) :=
  match m !! command with
  | Some inner => map_to_list inner
  | None => []
  end.

(** The stack [exec] builds under the read lock: internal handlers
    first, then external ones. *)
Definition exec_stack (c : Caller) (command : string) : list (string * Handler) :=
  handlers_of (internal c) command ++ handlers_of (external c) command.

Inductive exec_result :=
| ExecReturned (spawned : list task)  (* [c.wg.Wait()] returned *)
| ExecHung (wg' : nat)                (* [c.wg.Wait()] waits on a counter stuck at [wg'] *)
| ExecCrashed.                        (* an unrecovered panic ended the process *)

(** [func (c *Caller) exec(command string, client *Client, event *Event)].
    One goroutine runs each stack entry.  A goroutine whose handler
    returns goes on to [c.wg.Done()].  A goroutine whose handler panics
    unwinds: with [RecoverFunc] set the deferred [recoverHandlerPanic]
    stops the panic and the goroutine ends without passing [c.wg.Done()];
    without it the panic ends the process. *)
Definition exec (command : string) (client : Client) (event : Event)
    (c : Caller) : exec_result :=
  let stack := exec_stack c command in
  let runs := map (fun e => Execute e.2 event) stack in
  let panics := length (List.filter (fun r => is_panic r.1) runs) in
  if (0 <? panics)%nat && negb (RecoverFunc (config client)) then ExecCrashed
  else
    (* c.wg.Add(len(stack)), then one Done() per handler that returned *)
    let wg' := (wg c + length stack - (length stack - panics))%nat in
    if (wg' =? 0)%nat then ExecReturned (concat (map snd runs)) else ExecHung wg'.

(** A delivery step issued by [RunHandlers]. *)
Inductive delivery :=
| DeliverExec (command : string) (ev : Event)   (* c.Handlers.exec(command, c, ev) *)
| DeliverCTCP (ctcp : CTCPEvent).               (* c.CTCP.call(c, ctcp) *)

Inductive run_status := RunReturned | RunHung | RunCrashed.

Section Dispatcher.
Context {X : Externals}.

(** [func (c *Client) RunHandlers(event *Event)]; [None] is the nil
    event.  The result lists the delivery steps issued, the goroutines
    the handlers started, and how the call ended.  [event.Copy()] is
    the identity on values. *)
Definition RunHandlers (c : Client) (event : option Event)
    : list delivery * list task * run_status :=
  match event with
  | None => ([], [], RunReturned)
  | Some ev =>
      let step1 := DeliverExec ALLEVENTS ev in
      match exec ALLEVENTS c ev (Handlers c) with
      | ExecCrashed => ([step1], [], RunCrashed)
      | ExecHung _ => ([step1], [], RunHung)
      | ExecReturned s1 =>
          let step2 := DeliverExec (Command ev) ev in
          match exec (Command ev) c ev (Handlers c) with
          | ExecCrashed => ([step1; step2], s1, RunCrashed)
          | ExecHung _ => ([step1; step2], s1, RunHung)
          | ExecReturned s2 =>
              match decodeCTCP ev with
              | Some ctcp => ([step1; step2; DeliverCTCP ctcp], s1 ++ s2, RunReturned)
              | None => ([step1; step2], s1 ++ s2, RunReturned)
              end
          end
      end
  end.

(* ------------------------------------------------------------------- *)
(** ** [Connect]                                                        *)
(* ------------------------------------------------------------------- *)

(** The registration handshake at the end of [Connect], from
    "Passwords first" to [c.listCAP()]. *)
Definition handshake (c : Client) : Client :=
  let c := if negb (String.eqb (Password (config c)) "")
           then write (mkEvent PASS [Password (config c)] "" false) c
           else c in
  let c := write (mkEvent NICK [Nick (config c)] "" false) c in
  let c := if String.eqb (Name (config c)) ""
           then set_config (set_Name (User (config c)) (config c)) c
           else c in
  let c := write (mkEvent USER [User (config c); "+iw"; "*"]%string
                          (Name (config c)) false) c in
  fold_left (fun c e => write e c) (listCAP (config c)) c.



End Dispatcher.

(* --------------------------------------------------------------------- *)
(** ** The read loop and the send loop                                    *)
(* --------------------------------------------------------------------- *)

(** What one call of [c.conn.decode()] produces. *)
Inductive decode_result := Decoded (e : Event) | DecodeFailed (err : error).

(** The pair [(event, err)] that [decode] returns. *)
Definition decode (r : decode_result) : option Event * option error :=
  match r with
  | Decoded e => (Some e, None)
  | DecodeFailed err => (None, Some err)
  end.

(** What an iteration of a loop finds in its [select]. *)
Inductive read_obs :=
| ReadDone                       (* case <-done *)
| ReadLine (r : decode_result).  (* default: the next decode *)

Inductive loop_status :=
| LoopReturned   (* the goroutine has returned *)
| LoopRunning.   (* the goroutine is in the loop, waiting for more *)

(** [func (c *Client) readLoop(errs chan error, done chan struct{})], run
    over the observations of its successive iterations.  [errs] and [rx]
    are the values sent on the two channels so far. *)
Fixpoint readLoop (script : list read_obs) (errs : list error)
    (rx : list (option Event)) : loop_status * list error * list (option Event) :=
  match script with
  | [] => (LoopRunning, errs, rx)
  | ReadDone :: _ => (LoopReturned, errs, rx)
  | ReadLine r :: rest =>
      let '(event, err) := decode r in
      (* if err != nil { errs <- err } *)
      let errs := match err with Some e => errs ++ [e] | None => errs end in
      (* c.rx <- event *)
      readLoop rest errs (rx ++ [event])
  end.

Inductive send_obs :=
| SendDone                                           (* case <-done *)
| SendEvent (ev : Event) (now : Z) (werr : option error).
    (* case event := <-c.tx, the clock, and the result of the writes *)

(** [func (c *Client) sendLoop(errs chan error, done chan struct{})]. *)
Fixpoint sendLoop (script : list send_obs) (k : ircConn) (errs : list error)
    : loop_status * ircConn * list error :=
  match script with
  | [] => (LoopRunning, k, errs)
  | SendDone :: _ => (LoopReturned, k, errs)
  | SendEvent ev now werr :: rest =>
      (* c.conn.lastWrite = time.Now() *)
      let k := mkConn now (writeDelay k) (connected k) (lastPing k) (lastPong k) in
      match werr with
      | Some e => (LoopReturned, k, errs ++ [e])   (* errs <- err; return *)
      | None => sendLoop rest k errs
      end
  end.

(* --------------------------------------------------------------------- *)
(** ** The keepalive loop                                                 *)
(* --------------------------------------------------------------------- *)

(** [sync.RWMutex]: the number of read locks held and whether the write
    lock is held.  An operation that would have to wait returns [None]. *)
Record rwmutex := mkMutex { readers : nat; writer : bool }.

Definition RLock (m : rwmutex) : option rwmutex :=
  if writer m then None else Some (mkMutex (S (readers m)) false).

Definition RUnlock (m : rwmutex) : rwmutex :=
  mkMutex (Nat.pred (readers m)) (writer m).

Definition Lock (m : rwmutex) : option rwmutex :=
  if writer m || (0 <? readers m)%nat then None else Some (mkMutex (readers m) true).

Definition Unlock (m : rwmutex) : rwmutex := mkMutex (readers m) false.

(** The state the keepalive goroutine works on: the connection, its lock,
    the [RUnlock] calls this goroutine has deferred, the values sent on
    [errs], and the nonces passed to [c.Commands.Ping]. *)
Record pingState := mkPing {
  p_conn     : ircConn;
  p_mu       : rwmutex;
  p_deferred : nat;
  p_errs     : list error;
  p_pings    : list Z;
}.

(** Returning from [pingLoop] runs the deferred [RUnlock] calls. *)
Definition run_deferred (st : pingState) : pingState :=
  mkPing (p_conn st) (Nat.iter (p_deferred st) RUnlock (p_mu st)) 0
         (p_errs st) (p_pings st).

Inductive tick_result :=
| TickTimedOut (st : pingState)   (* errs <- ErrTimedOut; return *)
| TickPinged (st : pingState)     (* lastPing recorded and PING sent *)
| TickBlocked (st : pingState).   (* the goroutine waits for the lock *)

(** The body of [case <-tick.C] in [pingLoop].  [delay] is
    [c.Config.PingDelay]; [t1], [t2], [t3] are the three clock readings
    ([time.Since], the new [lastPing], the nonce). *)
Definition pingLoop_tick (delay t1 t2 t3 : Z) (st : pingState) : tick_result :=
  (* c.conn.mu.RLock(); defer c.conn.mu.RUnlock() *)
  match RLock (p_mu st) with
  | None => TickBlocked st
  | Some m =>
      let st := mkPing (p_conn st) m (S (p_deferred st)) (p_errs st) (p_pings st) in
      (* if time.Since(c.conn.lastPong) > c.Config.PingDelay+(60*time.Second) *)
      if Dur.add delay (60 * Dur.Second) <? Dur.time_sub t1 (lastPong (p_conn st)) then
        TickTimedOut
          (run_deferred
             (mkPing (p_conn st) (p_mu st) (p_deferred st)
                     (p_errs st ++ [ErrTimedOut]) (p_pings st)))
      else
        (* c.conn.mu.Lock() *)
        match Lock (p_mu st) with
        | None => TickBlocked st
        | Some m' =>
            (* c.conn.lastPing = time.Now(); c.conn.mu.Unlock();
               c.Commands.Ping(fmt.Sprintf("%d", time.Now().UnixNano())) *)
            TickPinged (mkPing (set_lastPing t2 (p_conn st)) (Unlock m')
                               (p_deferred st) (p_errs st) (p_pings st ++ [t3]))
        end
  end.

Inductive ping_obs :=
| PingDone                     (* case <-done *)
| PingTick (t1 t2 t3 : Z).     (* case <-tick.C, with the clock readings *)

Inductive ping_status :=
| PingReturned   (* the goroutine has returned *)
| PingRunning    (* waiting for the next tick *)
| PingBlocked.   (* waiting for the lock *)

(** The [for] loop of [pingLoop] over the observations of its iterations. *)
Fixpoint pingLoop_run (delay : Z) (script : list ping_obs) (st : pingState)
    : ping_status * pingState :=
  match script with
  | [] => (PingRunning, st)
  | PingDone :: _ => (PingReturned, run_deferred st)
  | PingTick t1 t2 t3 :: rest =>
      match pingLoop_tick delay t1 t2 t3 st with
      | TickTimedOut st' => (PingReturned, st')
      | TickPinged st' => pingLoop_run delay rest st'
      | TickBlocked st' => (PingBlocked, st')
      end
  end.

(** [func (c *Client) pingLoop(errs chan error, done chan struct{})]:
    the two timestamps are set under the write lock at [t0] and [t0'],
    then the loop runs. *)
Definition pingLoop (delay t0 t0' : Z) (script : list ping_obs) (st : pingState)
    : ping_status * pingState :=
  match Lock (p_mu st) with
  | None => (PingBlocked, st)
  | Some m =>
      let k := set_lastPong t0' (set_lastPing t0 (p_conn st)) in
      pingLoop_run delay script
        (mkPing k (Unlock m) (p_deferred st) (p_errs st) (p_pings st))
  end.

(* --------------------------------------------------------------------- *)
(** ** The registry: counting and clearing                                *)
(* --------------------------------------------------------------------- *)

(** [func (c *Caller) Len() int]: the loop over [c.external] that adds
    up [len(c.external[command])]. *)
Definition Len (c : Caller) : nat :=
  map_fold (fun _ inner total => (total + size inner)%nat) 0%nat (external c).

(** [func (c *Caller) ClearAll()] *)
Definition ClearAll (c : Caller) : Caller := mkCaller ∅ (internal c) (wg c).

(** [func (c *Caller) clearInternal()] *)
Definition clearInternal (c : Caller) : Caller := mkCaller (external c) ∅ (wg c).

Section RegistryCount.
Context {X : Externals}.

(** [func (c *Caller) Count(cmd string) int]: the loop over
    [c.external] that adds [len(c.external[command])] for the commands
    equal to the upper-cased [cmd]. *)
Definition Count (cmd : string) (c : Caller) : nat :=
  let cmd := ToUpper cmd in
  map_fold (fun command inner total =>
              if String.eqb command cmd then (total + size inner)%nat else total)
           0%nat (external c).

(** [func (c *Caller) Clear(cmd string)] *)
Definition Clear (cmd : string) (c : Caller) : Caller :=
  let cmd := ToUpper cmd in
  match external c !! cmd with
  | Some _ => mkCaller (delete cmd (external c)) (internal c) (wg c)
  | None => c
  end.

End RegistryCount.

(** Whether a stored handler is one of the closures of [AddBg] and
    [AddTmp], which run the caller's function in a goroutine of its own. *)
Definition is_background (h : Handler) : bool :=
  match h with
  | HandlerFunc _ => false
  | BgHandler _ | TmpHandler _ _ _ => true
  end.

(** How a goroutine started by a handler ends: its function returned,
    it panicked and [recoverHandlerPanic] stopped the panic, or it
    panicked with nothing to stop it, which ends the process. *)
Inductive task_end :=
| TaskFinished
| TaskRecovered
| TaskCrashed.

(** The goroutine started by the closure of [AddBg]:
    [if client.Config.RecoverFunc != nil { defer recoverHandlerPanic(...) }]
    and then [handler(client, event)].  The recovery is deferred only
    when a callback is configured; the callback itself is taken to
    return. *)
Definition bg_goroutine (client : Client) (f : Event -> outcome) (ev : Event) : task_end :=
  match f ev with
  | Returns => TaskFinished
  | Panics => if RecoverFunc (config client) then TaskRecovered else TaskCrashed
  end.

(* --------------------------------------------------------------------- *)
(** ** Sending                                                            *)
(* --------------------------------------------------------------------- *)

Section Sending.
(** The method [Len] of [Event] is defined with the message codec. *)
Variable EventLen : Event -> Z.

(** [func (c *Client) Send(event *Event)].  The result is the time the
    caller waits in [<-time.After(...)] and the client afterwards;
    [None] is the nil-pointer panic of [c.conn.rate] when there is no
    connection. *)
Definition Send (event : Event) (now : Z) (c : Client) : option (Z * Client) :=
  if negb (AllowFlood (config c)) then
    match conn c with
    | None => None
    | Some k =>
        let '(d, k') := rate k (EventLen event) now in
        Some (d, write event (set_conn k' c))
    end
  else Some (0, write event c).

End Sending.

(** The two ways the timing fields of a connection change while a
    session runs: a caller of [Send] runs [rate], and the send loop
    records [lastWrite] before it writes an event. *)
Inductive conn_op :=
| OpRate (chars now : Z)     (* c.conn.rate(chars) at time now *)
| OpWrite (now : Z).         (* c.conn.lastWrite = time.Now() *)

Definition conn_step (k : ircConn) (op : conn_op) : Z * ircConn :=
  match op with
  | OpRate chars now => rate k chars now
  | OpWrite now =>
      (0, mkConn now (writeDelay k) (connected k) (lastPing k) (lastPong k))
  end.

(** A sequence of such steps: the waits returned, in order, and the
    connection at the end. *)
Fixpoint conn_run (k : ircConn) (ops : list conn_op) : list Z * ircConn :=
  match ops with
  | [] => ([], k)
  | op :: rest =>
      let '(d, k') := conn_step k op in
      let '(ds, k'') := conn_run k' rest in
      (match op with OpRate _ _ => d :: ds | OpWrite _ => ds end, k'')
  end.

(** The clock never runs backwards past the last write, and no message
    is longer than [n]. *)
Fixpoint ops_ok (n lastW : Z) (ops : list conn_op) : Prop :=
  match ops with
  | [] => True
  | OpRate chars now :: rest => 0 <= chars <= n /\ lastW <= now /\ ops_ok n lastW rest
  | OpWrite now :: rest => ops_ok n now rest
  end.

Definition rate_calls (ops : list conn_op) : Z :=
  Z.of_nat (length (List.filter (fun op => match op with OpRate _ _ => true | _ => false end) ops)).

(* --------------------------------------------------------------------- *)
(** ** Framing: [decode]                                                  *)
(* --------------------------------------------------------------------- *)

(** The reading half of the connection: the bytes the socket still has
    to deliver, and the error its reads return once they are used up
    ([io.EOF] when the server closes the connection). *)
Record reader := mkReader {
  pending : string;
  final   : error;
}.

(** The data up to and including the first [delim], and what follows. *)
Fixpoint split_at (delim : ascii) (s : string) : option (string * string) :=
  match s with
  | EmptyString => None
  | String a s' =>
      if Ascii.eqb a delim then Some (String a EmptyString, s')
      else match split_at delim s' with
           | Some (line, rest) => Some (String a line, rest)
           | None => None
           end
  end.

(** [bufio.Reader.ReadString]: "reads until the first occurrence of delim
    in the input, returning a string containing the data up to and
    including the delimiter.  If ReadString encounters an error before
    finding a delimiter, it returns the data read before the error and
    the error itself". *)
Definition ReadString (delim : ascii) (r : reader) : (string * option error) * reader :=
  match split_at delim (pending r) with
  | Some (line, rest) => ((line, None), mkReader rest (final r))
  | None => ((pending r, Some (final r)), mkReader EmptyString (final r))
  end.

(** [const delim byte = '\n'] *)
Definition delim : ascii := "010"%char.

Section Decoding.
(** [ParseEvent] belongs to the message codec; [None] is its nil
    result.  [nil_event_text] is what [%s] prints for the nil event. *)
Variable ParseEvent : string -> option Event.
Variable nil_event_text : string.

(** [func (c *ircConn) decode() (event *Event, err error)] on the
    reading half of the connection. *)
Definition conn_decode (r : reader) : (option Event * option error) * reader :=
  let '((line, err), r') := ReadString delim r in
  match err with
  | Some e => ((None, Some e), r')
  | None =>
      match ParseEvent line with
      | None =>
          ((None, Some (ErrOther ("unable to parse incoming event: " +:+ nil_event_text))), r')
      | Some ev => ((Some ev, None), r')
      end
  end.

(** [n] calls of [decode] in a row. *)
Fixpoint decode_many (n : nat) (r : reader)
    : list (option Event * option error) * reader :=
  match n with
  | O => ([], r)
  | S n' =>
      let '(res, r') := conn_decode r in
      let '(more, r'') := decode_many n' r' in
      (res :: more, r'')
  end.

End Decoding.

(** The byte stream made of the given lines, each followed by a line
    feed, and then [tail]. *)
Definition join_lines (lines : list string) (tail : string) : string :=
  fold_right (fun l acc => l +:+ String delim acc) tail lines.

(* --------------------------------------------------------------------- *)
(** ** Dialing: [newConn]                                                 *)
(* --------------------------------------------------------------------- *)

(** [tls.Config], with the two fields [tlsHandshake] sets. *)
Record TLSConf := mkTLS {
  ServerName         : string;
  InsecureSkipVerify : bool;
}.

(** The options of [Config] that only [newConn] reads. *)
Record DialOptions := mkDial {
  Bind      : string;
  Proxy     : string;
  SSL       : bool;
  TLSConfig : option TLSConf;   (* [None] is nil *)
}.

(** A [net.Conn]: a socket obtained from a dial, possibly wrapped by
    [tls.Client]. *)
Inductive conn_sock :=
| PlainSock (id : nat)
| TLSSock (inner : conn_sock) (conf : TLSConf).

(** The calls [newConn] makes outside the package. *)
Inductive net_call :=
| CallResolve (hostport : string)                  (* net.ResolveTCPAddr("tcp", hostport) *)
| CallParseURL (s : string)                        (* url.Parse(s) *)
| CallFromURL (uri : string) (local : option string)  (* proxy.FromURL(uri, dialer) *)
| CallProxyDial (uri addr : string)                (* proxyDialer.Dial("tcp", addr) *)
| CallDial (local : option string) (addr : string). (* dialer.Dial("tcp", addr) *)

(** What those calls, and [conf.isValid], answer. *)
Record Network := mkNet {
  net_isValid   : Config -> DialOptions -> option error;
  net_resolve   : string -> error + string;
  net_parse     : string -> error + string;
  net_fromURL   : string -> option string -> option error;
  net_proxyDial : string -> string -> error + nat;
  net_dial      : option string -> string -> error + nat;
  (** [%q] of a string *)
  net_quote     : string -> string;
}.

(** [err.Error()], as [%s] prints an error. *)
Definition error_text (e : error) : string :=
  match e with
  | ErrTimedOut => "timed out during ping to server"
  | ErrOther msg => msg
  end.

(** [func tlsHandshake(conn net.Conn, conf *tls.Config, server string,
    validate bool) (net.Conn, error)] *)
Definition tlsHandshake (conn : conn_sock) (conf : option TLSConf)
    (server : string) (validate : bool) : conn_sock * option error :=
  let conf := match conf with
              | None => mkTLS server (negb validate)
              | Some cf => cf
              end in
  (TLSSock conn conf, None).

(** The zero [time.Time]. *)
Definition zeroTime : Z := 0.

(** The last part of [newConn], once [conn] is dialled. *)
Definition newConn_finish (conf : Config) (opts : DialOptions) (now : Z)
    (conn : conn_sock) : error + (conn_sock * Z * ircConn) :=
  let wrapped :=
    if SSL opts then
      let '(tlsConn, err) := tlsHandshake conn (TLSConfig opts) (Server conf) true in
      match err with
      | Some e => inl e
      | None => inr tlsConn
      end
    else inr conn in
  match wrapped with
  | inl e => inl e
  | inr conn =>
      (* ctime := time.Now(); &ircConn{sock: conn, connTime: &ctime, connected: true} *)
      inr (conn, now, mkConn zeroTime 0 true zeroTime zeroTime)
  end.

(** [func newConn(conf Config, addr string)], which returns a
    connection or an error: the
    result (the socket, [connTime] and the connection record, or the
    error) and the outside calls made, in order. *)
Definition newConn (N : Network) (conf : Config) (opts : DialOptions)
    (addr : string) (now : Z)
    : (error + (conn_sock * Z * ircConn)) * list net_call :=
  match net_isValid N conf opts with
  | Some err => (inl (ErrOther ("invalid configuration: " +:+ error_text err)), [])
  | None =>
      let bound :=
        if negb (String.eqb (Bind opts) "") then
          match net_resolve N (Bind opts +:+ ":0") with
          | inl err =>
              inl (ErrOther ("unable to resolve bind address " +:+ Bind opts
                             +:+ ": " +:+ error_text err))
          | inr local => inr (Some local)
          end
        else inr None in
      let calls1 := if negb (String.eqb (Bind opts) "")
                    then [CallResolve (Bind opts +:+ ":0")] else [] in
      match bound with
      | inl e => (inl e, calls1)
      | inr local =>
          if negb (String.eqb (Proxy opts) "") then
            match net_parse N (Proxy opts) with
            | inl err =>
                (inl (ErrOther ("unable to use proxy " +:+ net_quote N (Proxy opts)
                                +:+ ": " +:+ error_text err)),
                 calls1 ++ [CallParseURL (Proxy opts)])
            | inr uri =>
                match net_fromURL N uri local with
                | Some err =>
                    (inl (ErrOther ("unable to use proxy " +:+ net_quote N (Proxy opts)
                                    +:+ ": " +:+ error_text err)),
                     calls1 ++ [CallParseURL (Proxy opts); CallFromURL uri local])
                | None =>
                    let calls := calls1 ++ [CallParseURL (Proxy opts); CallFromURL uri local;
                                            CallProxyDial uri addr] in
                    match net_proxyDial N uri addr with
                    | inl err =>
                        (inl (ErrOther ("unable to connect to proxy "
                                        +:+ net_quote N (Proxy opts)
                                        +:+ ": " +:+ error_text err)), calls)
                    | inr id => (newConn_finish conf opts now (PlainSock id), calls)
                    end
                end
            end
          else
            let calls := calls1 ++ [CallDial local addr] in
            match net_dial N local addr with
            | inl err =>
                (inl (ErrOther ("unable to connect to " +:+ net_quote N addr
                                +:+ ": " +:+ error_text err)), calls)
            | inr id => (newConn_finish conf opts now (PlainSock id), calls)
            end
      end
  end.

(** Kinds of outside calls. *)
Definition is_dial (k : net_call) : bool :=
  match k with
  | CallProxyDial _ _ | CallDial _ _ => true
  | _ => false
  end.

Definition is_proxy_call (k : net_call) : bool :=
  match k with
  | CallParseURL _ | CallFromURL _ _ | CallProxyDial _ _ => true
  | _ => false
  end.

Definition is_direct_dial (k : net_call) : bool :=
  match k with
  | CallDial _ _ => true
  | _ => false
  end.

(* ===================================================================== *)
(** * Part II: properties                                                 *)
(* ===================================================================== *)

(* --------------------------------------------------------------------- *)
(** ** Wrap-around arithmetic                                             *)
(* --------------------------------------------------------------------- *)

Module DurFacts.
Import Dur.

Lemma wrap_in_range z : in_range (wrap z).
Proof.
  unfold in_range, wrap, min_int64, max_int64.
  pose proof (Z.mod_pos_bound (z + 2 ^ 63) (2 ^ 64) ltac:(lia)). lia.
Qed.

Lemma wrap_id z : in_range z -> wrap z = z.
Proof.
  unfold in_range, wrap, min_int64, max_int64. intros Hz.
  rewrite Z.mod_small by lia. lia.
Qed.

(** [wrap] commutes with addition modulo [2^64]. *)
Lemma wrap_add_l a b : wrap (wrap a + b) = wrap (a + b).
Proof.
  unfold wrap.
  replace ((a + 2 ^ 63) mod 2 ^ 64 - 2 ^ 63 + b + 2 ^ 63)
    with ((a + 2 ^ 63) mod 2 ^ 64 + b) by lia.
  rewrite Zplus_mod_idemp_l. f_equal. f_equal. lia.
Qed.

Lemma wrap_add_r a b : wrap (a + wrap b) = wrap (a + b).
Proof. rewrite (Z.add_comm a), wrap_add_l. f_equal. lia. Qed.

Lemma wrap_sub_l a b : wrap (wrap a - b) = wrap (a - b).
Proof. unfold Z.sub. apply wrap_add_l. Qed.

Lemma time_sub_in_range t u : in_range (time_sub t u).
Proof.
  unfold time_sub, in_range, min_int64, max_int64.
  repeat case_match; lia.
Qed.

End DurFacts.

Ltac dur_unfold :=
  unfold Dur.add, Dur.sub, Dur.mul, Dur.div, Dur.Second, Dur.in_range,
    Dur.max_int64, Dur.min_int64 in *.

(* --------------------------------------------------------------------- *)
(** ** The rate limiter                                                   *)
(* --------------------------------------------------------------------- *)

(** Whatever the inputs, the debt left by [rate] is never negative: the
    clamp is the last write to the field. *)
Lemma rate_writeDelay_nonneg c n now : 0 <= writeDelay (snd (rate c n now)).
Proof.
  unfold rate. cbv zeta.
  destruct (8 * Dur.Second <? _) eqn:E; cbn [snd writeDelay set_writeDelay];
    case_match; rewrite ?Z.ltb_ge in *; lia.
Qed.

(** The cost of a message whose size times one second fits a [Duration]
    is the exact integer [10^9 + n * 10^9 / 100] nanoseconds. *)
Lemma cost_exact n :
  0 <= n <= 9223372036 ->
  RateSpec.cost n = 1000000000 + n * 1000000000 / 100.
Proof.
  intros Hn. unfold RateSpec.cost, Dur.add, Dur.div, Dur.mul, Dur.Second.
  rewrite (DurFacts.wrap_id (n * _)) by (dur_unfold; lia).
  rewrite Z.quot_div_nonneg by lia.
  assert (Hq : n * 1000000000 / 100 = n * 10000000).
  { replace (n * 1000000000) with (n * 10000000 * 100) by lia.
    apply Z.div_mul; lia. }
  rewrite Hq.
  rewrite (DurFacts.wrap_id (n * _)) by (dur_unfold; lia).
  apply DurFacts.wrap_id. dur_unfold; lia.
Qed.

(** Past that size the product [n * 1s] no longer fits: the first such
    length already yields a negative cost. *)
Example cost_wraps : RateSpec.cost 9223372037 = -92233719367095516.
Proof. reflexivity. Qed.

(** Without overflow the new debt is the exact integer
    [max 0 (debt + cost - (now - lastWrite))], also when the elapsed time
    is longer than a [Duration] can hold (as it is before the first write,
    when [lastWrite] is the zero time). *)
Lemma debt_exact old n now lastW :
  0 <= old -> old + RateSpec.cost n <= Dur.max_int64 ->
  0 <= RateSpec.cost n -> lastW <= now ->
  RateSpec.debt old n now lastW = Z.max 0 (old + RateSpec.cost n - (now - lastW)).
Proof.
  intros Hold Hsum Hc Ht. unfold RateSpec.debt.
  set (k := RateSpec.cost n) in *.
  unfold Dur.sub, Dur.add. rewrite DurFacts.wrap_sub_l.
  unfold Dur.time_sub.
  destruct (now - lastW <? Dur.min_int64) eqn:E1;
    [apply Z.ltb_lt in E1; dur_unfold; lia|].
  destruct (Dur.max_int64 <? now - lastW) eqn:E2.
  - apply Z.ltb_lt in E2.
    rewrite DurFacts.wrap_id by (dur_unfold; lia). dur_unfold; lia.
  - apply Z.ltb_ge in E2.
    rewrite DurFacts.wrap_id by (dur_unfold; lia). reflexivity.
Qed.

(** C1.  For every message length [n] (in particular every [n >= 0]) and
    every connection state, [rate] computes the cost [1s + n*1s/100] in
    integer [Duration] arithmetic, replaces the write-delay debt by
    [max(0, debt + cost - (now - lastWrite))], and returns the full cost
    when the resulting debt strictly exceeds eight seconds and zero
    otherwise.  Whenever [n * 1s] and [debt + cost] fit a [Duration]
    (every [n <= 9223372036]), these are the exact integers
    [10^9 + n*10^9/100] and [max 0 (debt + cost - (now - lastWrite))]. *)
Theorem rate_spec (c : ircConn) (n now : Z) :
  let cost := RateSpec.cost n in
  let debt := RateSpec.debt (writeDelay c) n now (lastWrite c) in
  rate c n now = (RateSpec.wait (writeDelay c) n now (lastWrite c),
                  set_writeDelay debt c)
  /\ (0 <= n <= 9223372036 -> 0 <= writeDelay c ->
      writeDelay c + cost <= Dur.max_int64 -> lastWrite c <= now ->
      cost = 1000000000 + n * 1000000000 / 100
      /\ debt = Z.max 0 (writeDelay c + cost - (now - lastWrite c))).
Proof.
  cbv zeta. split.
  - unfold rate, RateSpec.wait, RateSpec.debt, RateSpec.cost. cbv zeta.
    set (k := Dur.add Dur.Second _).
    assert (Hd : Dur.add (writeDelay c) (Dur.sub k (Dur.time_sub now (lastWrite c)))
                 = Dur.sub (Dur.add (writeDelay c) k) (Dur.time_sub now (lastWrite c))).
    { unfold Dur.add, Dur.sub. rewrite DurFacts.wrap_add_r, DurFacts.wrap_sub_l.
      f_equal. lia. }
    rewrite Hd. set (d := Dur.sub _ _).
    assert (Hm : (if d <? 0 then 0 else d) = Z.max 0 d).
    { destruct (d <? 0) eqn:E; [apply Z.ltb_lt in E | apply Z.ltb_ge in E]; lia. }
    rewrite Hm. cbn [writeDelay set_writeDelay].
    destruct (8 * Dur.Second <? Z.max 0 d); reflexivity.
  - intros Hn Hwd Hsum Ht.
    pose proof (cost_exact n Hn) as Hc. split; [exact Hc|].
    apply debt_exact; try assumption. rewrite Hc.
    assert (0 <= n * 1000000000 / 100) by (apply Z.div_pos; lia). lia.
Qed.

(** The limiter at a 50-byte message sent half a second after the last
    write with 7.9 seconds of debt: the cost is 1.5s, the debt becomes
    8.9s, and the caller waits the full 1.5s. *)
Lemma rate_spec_witness :
  let c := mkConn 0 7900000000 true 0 0 in
  rate c 50 500000000 = (1500000000, set_writeDelay 8900000000 c)
  /\ RateSpec.cost 50 = 1000000000 + 50 * 1000000000 / 100
  /\ RateSpec.debt 7900000000 50 500000000 0
     = Z.max 0 (7900000000 + RateSpec.cost 50 - (500000000 - 0)).
Proof.
  cbv zeta.
  destruct (rate_spec (mkConn 0 7900000000 true 0 0) 50 500000000) as [H1 H2].
  split; [exact H1|].
  cbn [writeDelay lastWrite] in H2.
  apply H2; vm_compute; intuition congruence.
Defined.

(* --------------------------------------------------------------------- *)
(** ** Byte strings                                                       *)
(* --------------------------------------------------------------------- *)

Section StringFacts.
Implicit Types (s t : string) (c a : ascii).

Lemma IndexByte_ge s c : -1 <= IndexByte s c.
Proof.
  induction s as [|a s IH]; simpl; [lia|].
  destruct (Ascii.eqb a c); [lia|].
  destruct (IndexByte s c <? 0) eqn:E; [lia|]. apply Z.ltb_ge in E. lia.
Qed.

Lemma IndexByte_lt_length s c : IndexByte s c < Z.of_nat (String.length s).
Proof.
  induction s as [|a s IH]; simpl String.length; simpl IndexByte; [lia|].
  destruct (Ascii.eqb a c); [lia|].
  destruct (IndexByte s c <? 0) eqn:E; lia.
Qed.

Lemma IndexByte_hit_In s c : 0 <= IndexByte s c -> In c (list_ascii_of_string s).
Proof.
  induction s as [|a s IH]; simpl; [lia|].
  destruct (Ascii.eqb a c) eqn:E.
  - apply Ascii.eqb_eq in E. auto.
  - destruct (IndexByte s c <? 0) eqn:E2; [lia|].
    apply Z.ltb_ge in E2. auto.
Qed.

Lemma IndexByte_miss_notin s c : IndexByte s c < 0 -> ~ In c (list_ascii_of_string s).
Proof.
  induction s as [|a s IH]; simpl; [tauto|].
  destruct (Ascii.eqb a c) eqn:E; [lia|].
  apply Ascii.eqb_neq in E.
  destruct (IndexByte s c <? 0) eqn:E2.
  - apply Z.ltb_lt in E2. intros _ [H|H]; [congruence | tauto].
  - apply Z.ltb_ge in E2. pose proof (IndexByte_ge s c). lia.
Qed.

(** [IndexByte] reports [-1] exactly when the byte does not occur. *)
Lemma IndexByte_neg_iff s c :
  IndexByte s c < 0 <-> ~ In c (list_ascii_of_string s).
Proof.
  split; [apply IndexByte_miss_notin|].
  intros Hn. destruct (Z_lt_ge_dec (IndexByte s c) 0) as [|Hge]; [assumption|].
  exfalso. apply Hn, IndexByte_hit_In. lia.
Qed.

(** Searching past a prefix that does not hold the byte. *)
Lemma IndexByte_app_miss s c t :
  IndexByte s c < 0 ->
  IndexByte (s +:+ String c t) c = Z.of_nat (String.length s).
Proof.
  induction s as [|a s IH]; simpl.
  - intros _. now rewrite Ascii.eqb_refl.
  - destruct (Ascii.eqb a c) eqn:E; [lia|].
    destruct (IndexByte s c <? 0) eqn:E2; [|pose proof (IndexByte_ge s c); lia].
    intros _. apply Z.ltb_lt in E2. rewrite (IH E2).
    destruct (Z.of_nat (String.length s) <? 0) eqn:E3; [apply Z.ltb_lt in E3|]; lia.
Qed.

(** A hit inside the prefix is found there. *)
Lemma IndexByte_app_hit s c t :
  0 <= IndexByte s c -> IndexByte (s +:+ t) c = IndexByte s c.
Proof.
  induction s as [|a s IH]; simpl; [lia|].
  destruct (Ascii.eqb a c); [reflexivity|].
  destruct (IndexByte s c <? 0) eqn:E2; [lia|].
  pose proof E2 as E2'. apply Z.ltb_ge in E2'.
  intros _. rewrite (IH E2'), E2. reflexivity.
Qed.

Lemma slice_to_app s t : slice_to (s +:+ t) (String.length s) = s.
Proof. induction s as [|a s IH]; simpl; [now destruct t | now rewrite IH]. Qed.

Lemma slice_from_app s t : slice_from (s +:+ t) (String.length s) = t.
Proof. induction s as [|a s IH]; simpl; [now destruct t | exact IH]. Qed.

Lemma slice_to_length s i :
  String.length (slice_to s i) = Nat.min i (String.length s).
Proof.
  revert i. induction s as [|a s IH]; intros [|i]; simpl; try reflexivity.
  now rewrite IH.
Qed.

Lemma get_In s i a : String.get i s = Some a -> In a (list_ascii_of_string s).
Proof.
  revert i. induction s as [|b s IH]; intros [|i]; simpl; try discriminate.
  - intros [= ->]. auto.
  - intros H. right. eauto.
Qed.

Lemma get_lt s i : (i < String.length s)%nat -> exists a, String.get i s = Some a.
Proof.
  revert i. induction s as [|b s IH]; intros [|i]; simpl; try lia; eauto.
  intros H. apply IH. lia.
Qed.

Lemma byte_at_In s i : (i < String.length s)%nat -> In (byte_at s i) (list_ascii_of_string s).
Proof.
  intros H. destruct (get_lt s i H) as [a Ha]. unfold byte_at. rewrite Ha.
  eapply get_In; eauto.
Qed.

Lemma length_zero_empty s : (String.length s =? 0)%nat = true <-> s = EmptyString.
Proof. destruct s; simpl; split; congruence. Qed.

End StringFacts.

(* --------------------------------------------------------------------- *)
(** ** Tokens: [cuid] and [cuidToID]                                      *)
(* --------------------------------------------------------------------- *)

Lemma Int63_range g : 0 <= Int63 g < 2 ^ 63.
Proof. unfold Int63. apply Z.mod_pos_bound. lia. Qed.

Lemma rand_letters_S n g :
  rand_letters (S n) g
  = (String (byte_at letterBytes
               (Z.to_nat (Z.rem (Int63 g) (Z.of_nat (String.length letterBytes)))))
            (rand_letters n (rng_next g)).1,
     (rand_letters n (rng_next g)).2).
Proof. simpl. destruct (rand_letters n (rng_next g)). reflexivity. Qed.

(** The identifier is [n] bytes long and made of bytes of [letterBytes]. *)
Lemma rand_letters_spec n g :
  String.length (rand_letters n g).1 = n
  /\ forall a, In a (list_ascii_of_string (rand_letters n g).1) ->
               In a (list_ascii_of_string letterBytes).
Proof.
  revert g. induction n as [|n IH]; intros g.
  - split; [reflexivity | intros a []].
  - rewrite rand_letters_S. cbn [fst snd].
    destruct (IH (rng_next g)) as [IHl IHa].
    split; [cbn [String.length]; now rewrite IHl|].
    cbn [list_ascii_of_string]. intros a [<-|H]; [|auto].
    apply byte_at_In.
    pose proof (Int63_range g) as Hr.
    change (String.length letterBytes) with 52%nat.
    pose proof (Z.rem_bound_pos (Int63 g) 52 ltac:(lia) ltac:(lia)). lia.
Qed.

(** The shape of the token: command, a colon, the identifier. *)
Lemma cuid_shape cmd n g :
  cuid cmd n g = ((cmd +:+ ":" +:+ (rand_letters n g).1, (rand_letters n g).1),
                  (rand_letters n g).2).
Proof. unfold cuid. destruct (rand_letters n g). reflexivity. Qed.

Lemma append_cons a s t : String a s +:+ t = String a (s +:+ t).
Proof. reflexivity. Qed.

Lemma append_colon_assoc cmd uid :
  (cmd +:+ ":") +:+ uid = cmd +:+ String ":" uid.
Proof.
  induction cmd as [|a cmd IH]; [reflexivity|].
  rewrite !append_cons. now f_equal.
Qed.

Lemma append_colon_length cmd :
  String.length (cmd +:+ ":") = S (String.length cmd).
Proof.
  induction cmd as [|a cmd IH]; [reflexivity|].
  rewrite append_cons. cbn [String.length]. now f_equal.
Qed.

(** Parsing [cmd:uid] when [cmd] holds no colon. *)
Lemma cuidToID_join cmd uid :
  IndexByte cmd ":" < 0 -> cuidToID (cmd +:+ ":" +:+ uid) = (cmd, uid).
Proof.
  intros H. unfold cuidToID.
  change (cmd +:+ ":" +:+ uid) with (cmd +:+ String ":" uid).
  rewrite (IndexByte_app_miss _ _ _ H).
  destruct (Z.of_nat (String.length cmd) <? 0) eqn:E; [apply Z.ltb_lt in E; lia|].
  rewrite Nat2Z.id.
  replace (Z.to_nat (Z.of_nat (String.length cmd) + 1)) with (S (String.length cmd)) by lia.
  rewrite slice_to_app. f_equal.
  rewrite <- append_colon_assoc, <- append_colon_length.
  apply slice_from_app.
Qed.

(** Parsing [cmd:uid] when [cmd] does hold a colon cuts [cmd] short. *)
Lemma cuidToID_join_colon cmd uid :
  0 <= IndexByte cmd ":" -> (cuidToID (cmd +:+ ":" +:+ uid)).1 <> cmd.
Proof.
  intros H. unfold cuidToID. rewrite (IndexByte_app_hit _ _ _ H).
  destruct (IndexByte cmd ":" <? 0) eqn:E; [apply Z.ltb_lt in E; lia|].
  simpl. intros Heq. apply (f_equal String.length) in Heq.
  rewrite slice_to_length in Heq.
  pose proof (IndexByte_lt_length cmd ":"). lia.
Qed.

(** C7 (as amended).  The token [cuid(cmd, n)] produces is parsed by
    [cuidToID] back into exactly [(cmd, id)] if and only if [cmd] holds no
    colon; the identifier [id] always has length [n] and consists of
    bytes of [letterBytes]. *)
Theorem cuid_roundtrip (cmd : string) (n : nat) (g : rng) :
  let tok := (cuid cmd n g).1.1 in
  let id := (cuid cmd n g).1.2 in
  (cuidToID tok = (cmd, id) <-> IndexByte cmd ":" < 0)
  /\ String.length id = n
  /\ (forall a, In a (list_ascii_of_string id) ->
                In a (list_ascii_of_string letterBytes)).
Proof.
  cbv zeta. rewrite cuid_shape. cbn [fst snd].
  split; [|apply rand_letters_spec].
  split.
  - intros Heq. destruct (Z_lt_ge_dec (IndexByte cmd ":") 0) as [|Hge]; [assumption|].
    exfalso. apply (cuidToID_join_colon cmd (rand_letters n g).1); [lia|].
    now rewrite Heq.
  - apply cuidToID_join.
Qed.

(** C7, as stated, fails for a command name with a colon: the token of
    ["A:B"] with identifier ["aaa"] parses into [("A", "B:aaa")]. *)
Lemma cuid_roundtrip_counterexample :
  let g : rng := fun _ => 0 in
  (cuid "A:B" 3 g).1 = ("A:B:aaa"%string, "aaa"%string)
  /\ cuidToID "A:B:aaa" = ("A"%string, "B:aaa"%string)
  /\ cuidToID (cuid "A:B" 3 g).1.1 <> ("A:B"%string, (cuid "A:B" 3 g).1.2).
Proof. cbv zeta. repeat split. vm_compute. discriminate. Qed.

(* --------------------------------------------------------------------- *)
(** ** The registry: [store], [remove], [register]                        *)
(* --------------------------------------------------------------------- *)

Lemma lookup2_store_eq (m : handler_map) cmd uid h :
  lookup2 (store m cmd uid h) cmd uid = Some h.
Proof.
  unfold lookup2, store. rewrite lookup_insert_eq. apply lookup_insert_eq.
Qed.

Lemma lookup2_store_ne (m : handler_map) cmd uid h cmd' uid' :
  (cmd', uid') <> (cmd, uid) ->
  lookup2 (store m cmd uid h) cmd' uid' = lookup2 m cmd' uid'.
Proof.
  intros Hne. unfold lookup2, store.
  destruct (decide (cmd = cmd')) as [<-|Hc].
  - rewrite lookup_insert_eq.
    assert (uid <> uid') by congruence.
    rewrite lookup_insert_ne by assumption.
    destruct (m !! cmd); [reflexivity | apply lookup_empty].
  - now rewrite lookup_insert_ne.
Qed.

Lemma store_other_command (m : handler_map) cmd uid h cmd' :
  cmd' <> cmd -> store m cmd uid h !! cmd' = m !! cmd'.
Proof. intros Hne. unfold store. now rewrite lookup_insert_ne. Qed.

(** Deleting one identifier under one command, seen through [lookup2]. *)
Lemma lookup2_delete_eq (m : handler_map) cmd uid inner :
  lookup2 (<[cmd := delete uid inner]> m) cmd uid = None.
Proof. unfold lookup2. rewrite lookup_insert_eq. apply lookup_delete_eq. Qed.

Lemma lookup2_delete_ne (m : handler_map) cmd uid inner cmd' uid' :
  m !! cmd = Some inner -> (cmd', uid') <> (cmd, uid) ->
  lookup2 (<[cmd := delete uid inner]> m) cmd' uid' = lookup2 m cmd' uid'.
Proof.
  intros Hin Hne. unfold lookup2.
  destruct (decide (cmd = cmd')) as [<-|Hc].
  - rewrite lookup_insert_eq, Hin.
    assert (uid <> uid') by congruence. now rewrite lookup_delete_ne.
  - now rewrite lookup_insert_ne.
Qed.

(** The two ways [remove] can end, decided by the parsed token. *)
Lemma remove_cases tok c :
  let cmd := (cuidToID tok).1 in
  let uid := (cuidToID tok).2 in
  (remove tok c = (false, c)
   /\ (cmd = EmptyString \/ uid = EmptyString \/ lookup2 (external c) cmd uid = None))
  \/ (exists inner h,
        cmd <> EmptyString /\ uid <> EmptyString
        /\ external c !! cmd = Some inner /\ inner !! uid = Some h
        /\ remove tok c
           = (true, mkCaller (<[cmd := delete uid inner]> (external c))
                             (internal c) (wg c))).
Proof.
  cbv zeta. unfold remove. destruct (cuidToID tok) as [cmd uid]. cbn [fst snd].
  destruct (String.length cmd =? 0)%nat eqn:Ec.
  { left. apply length_zero_empty in Ec. auto. }
  destruct (String.length uid =? 0)%nat eqn:Eu.
  { left. apply length_zero_empty in Eu. auto. }
  cbn [orb].
  assert (cmd <> EmptyString) by (intros ->; discriminate).
  assert (uid <> EmptyString) by (intros ->; discriminate).
  unfold lookup2.
  destruct (external c !! cmd) as [inner|] eqn:Em; [|left; auto].
  destruct (inner !! uid) as [h|] eqn:Ei; [|left; auto].
  right. exists inner, h. auto.
Qed.

(** A removal that fails changes nothing. *)
Lemma remove_false_id tok c : (remove tok c).1 = false -> (remove tok c).2 = c.
Proof.
  destruct (remove_cases tok c) as [[-> _]|(inner & h & _ & _ & _ & _ & ->)];
    [reflexivity | discriminate].
Qed.

(** A removal that succeeds makes the next one fail. *)
Lemma remove_true_then_false tok c :
  (remove tok c).1 = true ->
  remove tok (remove tok c).2 = (false, (remove tok c).2).
Proof.
  destruct (remove_cases tok c) as [[-> _]|(inner & h & Hc & Hu & Hm & Hi & ->)];
    [discriminate|].
  intros _. cbn [snd].
  destruct (remove_cases tok
              (mkCaller (<[(cuidToID tok).1 := delete (cuidToID tok).2 inner]> (external c))
                        (internal c) (wg c)))
    as [[-> _]|(inner' & h' & _ & _ & Hm' & Hi' & _)]; [reflexivity|].
  exfalso. cbn [external] in Hm'.
  rewrite lookup_insert_eq in Hm'. injection Hm' as <-.
  rewrite lookup_delete_eq in Hi'. discriminate.
Qed.

Section RegistryFacts.
Context {X : Externals}.

(** What [register] leaves behind: the token is the upper-cased command,
    a colon and a fresh 20-byte identifier, and the handler sits under
    that command and identifier in the chosen namespace only. *)
Lemma register_spec (is_internal : bool) cmd h c g :
  let uid := (rand_letters 20 g).1 in
  register is_internal cmd h c g
  = (ToUpper cmd +:+ ":" +:+ uid,
     (if is_internal
      then mkCaller (external c) (store (internal c) (ToUpper cmd) uid h) (wg c)
      else mkCaller (store (external c) (ToUpper cmd) uid h) (internal c) (wg c)),
     (rand_letters 20 g).2).
Proof.
  cbv zeta. unfold register. rewrite cuid_shape. now destruct is_internal.
Qed.

Lemma uid20_nonempty g : (rand_letters 20 g).1 <> EmptyString.
Proof.
  intros H. pose proof (proj1 (rand_letters_spec 20 g)) as Hl.
  rewrite H in Hl. discriminate.
Qed.

(** A handler registered under any spelling of [cmd] is on the stack
    that [exec] builds for the upper-cased command. *)
Lemma register_reached_by_exec (is_internal : bool) cmd h c g :
  let r := register is_internal cmd h c g in
  exists uid, r.1.1 = ToUpper cmd +:+ ":" +:+ uid
              /\ (uid, h) ∈ exec_stack r.1.2 (ToUpper cmd).
Proof.
  cbv zeta. rewrite register_spec. cbn [fst snd].
  exists (rand_letters 20 g).1. split; [reflexivity|].
  unfold exec_stack, handlers_of. apply elem_of_app.
  destruct is_internal; cbn [internal external]; [left|right];
    unfold store; rewrite lookup_insert_eq;
    apply elem_of_map_to_list, lookup_insert_eq.
Qed.

(** C3 (as amended).  For every external registration whose upper-cased
    command name is non-empty and holds no colon, the first [Remove] of
    the returned token returns [true] and deletes the handler, and a
    second [Remove] of the same token returns [false] and changes
    nothing. *)
Theorem register_Remove_once cmd h c g :
  ToUpper cmd <> EmptyString ->
  IndexByte (ToUpper cmd) ":" < 0 ->
  let r := register false cmd h c g in
  let tok := r.1.1 in
  let c1 := r.1.2 in
  exists uid c2,
    tok = ToUpper cmd +:+ ":" +:+ uid
    /\ lookup2 (external c1) (ToUpper cmd) uid = Some h
    /\ Remove tok c1 = (true, c2)
    /\ lookup2 (external c2) (ToUpper cmd) uid = None
    /\ Remove tok c2 = (false, c2).
Proof.
  intros Hne Hcolon. cbv zeta. rewrite register_spec. cbn [fst snd].
  set (uid := (rand_letters 20 g).1).
  set (tok := ToUpper cmd +:+ ":" +:+ uid).
  set (c1 := mkCaller _ _ _).
  assert (Hparse : cuidToID tok = (ToUpper cmd, uid)) by now apply cuidToID_join.
  assert (Hin : lookup2 (external c1) (ToUpper cmd) uid = Some h)
    by apply lookup2_store_eq.
  exists uid, (Remove tok c1).2.
  unfold Remove.
  destruct (remove_cases tok c1) as [[_ Hbad]|(inner & h' & _ & _ & Hm & Hi & Hr)];
    rewrite Hparse in *; cbn [fst snd] in *.
  - exfalso. destruct Hbad as [?|[Hu|Hnone]]; [congruence| |congruence].
    now apply (uid20_nonempty g).
  - pose proof (remove_true_then_false tok c1) as Htwice.
    rewrite Hr in *. cbn [fst snd] in *.
    repeat split; try reflexivity; try assumption.
    + apply lookup2_delete_eq.
    + now apply Htwice.
Qed.

End RegistryFacts.

(** The round trip at ["privmsg"], registered on an empty registry. *)
Lemma register_Remove_once_witness :
  let h := HandlerFunc (fun _ => Returns) in
  let r := @register ascii_externals false "privmsg" h newCaller (fun _ => 0) in
  exists uid c2,
    r.1.1 = "PRIVMSG" +:+ ":" +:+ uid
    /\ lookup2 (external r.1.2) "PRIVMSG" uid = Some h
    /\ Remove r.1.1 r.1.2 = (true, c2)
    /\ lookup2 (external c2) "PRIVMSG" uid = None
    /\ Remove r.1.1 c2 = (false, c2).
Proof.
  cbv zeta.
  apply (@register_Remove_once ascii_externals "privmsg"
           (HandlerFunc (fun _ => Returns)) newCaller (fun _ => 0)).
  - vm_compute. discriminate.
  - vm_compute. reflexivity.
Defined.

(** C3, as stated, fails for the empty command name: the handler is
    registered, yet the first [Remove] of its token already returns
    [false] and leaves it in place ([remove] rejects a token whose
    command part is empty). *)
Lemma register_Remove_counterexample :
  let h := HandlerFunc (fun _ => Returns) in
  let r := @register ascii_externals false "" h newCaller (fun _ => 0) in
  r.1.1 = ":aaaaaaaaaaaaaaaaaaaa"%string
  /\ lookup2 (external r.1.2) "" "aaaaaaaaaaaaaaaaaaaa" = Some h
  /\ Remove r.1.1 r.1.2 = (false, r.1.2).
Proof.
  cbv zeta. rewrite (@register_spec ascii_externals). cbn [fst snd].
  change (rand_letters 20 (fun _ => 0)).1 with "aaaaaaaaaaaaaaaaaaaa"%string.
  change (@ToUpper ascii_externals "") with ""%string.
  repeat split.
Qed.

(* --------------------------------------------------------------------- *)
(** ** [Remove]: what it touches                                          *)
(* --------------------------------------------------------------------- *)

(** C6 (as amended).  [Remove] never modifies the internal namespace.  It
    returns [true] exactly when the token parses into a non-empty command
    and a non-empty identifier that are present in the external
    namespace; it then deletes that one entry and leaves every other
    external entry unchanged.  In every other case (in particular for a
    handler registered only internally) it returns [false] and changes
    no state at all. *)
Theorem Remove_frame (tok : string) (c : Caller) :
  let cmd := (cuidToID tok).1 in
  let uid := (cuidToID tok).2 in
  let ok := (Remove tok c).1 in
  let c' := (Remove tok c).2 in
  internal c' = internal c
  /\ (ok = true <->
      cmd <> EmptyString /\ uid <> EmptyString
      /\ is_Some (lookup2 (external c) cmd uid))
  /\ (ok = false -> c' = c)
  /\ (lookup2 (external c) cmd uid = None -> ok = false /\ c' = c)
  /\ (ok = true ->
      lookup2 (external c') cmd uid = None
      /\ (forall cmd' uid', (cmd', uid') <> (cmd, uid) ->
            lookup2 (external c') cmd' uid' = lookup2 (external c) cmd' uid')
      /\ (forall cmd', cmd' <> cmd -> external c' !! cmd' = external c !! cmd')).
Proof.
  cbv zeta. unfold Remove.
  destruct (remove_cases tok c)
    as [[-> Hbad]|(inner & h & Hc & Hu & Hm & Hi & ->)]; cbn [fst snd].
  - split; [reflexivity|].
    split; [|split; [reflexivity | split; [split; reflexivity | discriminate]]].
    split; [discriminate|].
    intros (Hc & Hu & [h Hh]). destruct Hbad as [?|[?|?]]; congruence.
  - cbn [internal external]. split; [reflexivity|].
    assert (Hin : lookup2 (external c) (cuidToID tok).1 (cuidToID tok).2 = Some h)
      by (unfold lookup2; now rewrite Hm).
    split; [|split; [discriminate | split; [congruence|]]].
    + split; [|reflexivity]. intros _. repeat split; try assumption. now exists h.
    + intros _. split; [apply lookup2_delete_eq|]. split.
      * intros cmd' uid' Hne. now apply lookup2_delete_ne.
      * intros cmd' Hne. now rewrite lookup_insert_ne.
Qed.

(** C6, as stated, fails for a token whose command part is empty: the
    handler that [AddHandler] stored under the empty command is present
    in the external namespace, and [Remove] of its token returns [false]
    without deleting it. *)
Lemma Remove_frame_counterexample :
  let h := HandlerFunc (fun _ => Returns) in
  let r := @AddHandler ascii_externals "" h newCaller (fun _ => 0) in
  let tok := r.1.1 in
  let c := r.1.2 in
  cuidToID tok = (""%string, "aaaaaaaaaaaaaaaaaaaa"%string)
  /\ lookup2 (external c) "" "aaaaaaaaaaaaaaaaaaaa" = Some h
  /\ Remove tok c = (false, c).
Proof. cbv zeta. repeat split. Qed.

(* --------------------------------------------------------------------- *)
(** ** Letter case of the command name                                    *)
(* --------------------------------------------------------------------- *)

(** What [AddTmp] leaves behind: the handler sits in the external
    namespace under [cmd] exactly as given. *)
Lemma AddTmp_spec cmd deadline f c g chs :
  let uid := (rand_letters 20 g).1 in
  let tok := cmd +:+ ":" +:+ uid in
  let done := length chs in
  AddTmp cmd deadline f c g chs
  = mkTmp tok done
      (if 0 <? deadline then [DeadlineTask deadline tok done] else [])
      (mkCaller (store (external c) cmd uid (TmpHandler f tok done)) (internal c) (wg c))
      (rand_letters 20 g).2
      (chs ++ [0%nat]).
Proof. cbv zeta. unfold AddTmp. rewrite cuid_shape. reflexivity. Qed.

Lemma handlers_of_store_other (m : handler_map) cmd uid h cmd' :
  cmd' <> cmd -> handlers_of (store m cmd uid h) cmd' = handlers_of m cmd'.
Proof. intros Hne. unfold handlers_of. now rewrite store_other_command. Qed.

Section LetterCase.
Context {X : Externals}.

(** C4.  [register] upper-cases the command name, [AddTmp] does not.  For
  every command name that is not already in upper case, the temporary
  handler is put on the stack [exec] builds for the name as given,
  while the stack for the upper-cased name, and with it the result of
  [exec] for that name, is what it was before the call: the new handler
  is not reached by [exec] of the upper-case command. *)
Theorem AddTmp_keeps_letter_case cmd deadline f c g chs :
ToUpper cmd <> cmd ->
let r := AddTmp cmd deadline f c g chs in
(exists uid,
    tmp_cuid r = cmd +:+ ":" +:+ uid
    /\ (uid, TmpHandler f (tmp_cuid r) (tmp_done r)) ∈ exec_stack (tmp_caller r) cmd)
/\ exec_stack (tmp_caller r) (ToUpper cmd) = exec_stack c (ToUpper cmd)
/\ (forall client ev,
      exec (ToUpper cmd) client ev (tmp_caller r) = exec (ToUpper cmd) client ev c).
Proof.
intros Hne. cbv zeta. rewrite AddTmp_spec.
cbn [tmp_cuid tmp_done tmp_caller].
assert (Hstack : forall k,
           exec_stack (mkCaller (store (external c) cmd (rand_letters 20 g).1 k)
                                (internal c) (wg c)) (ToUpper cmd)
           = exec_stack c (ToUpper cmd)).
{ intros k. unfold exec_stack. cbn [internal external].
  now rewrite handlers_of_store_other. }
split; [|split].
- eexists. split; [reflexivity|].
  unfold exec_stack, handlers_of. cbn [internal external].
  apply elem_of_app. right. unfold store. rewrite lookup_insert_eq.
  apply elem_of_map_to_list, lookup_insert_eq.
- apply Hstack.
- intros client ev. unfold exec. now rewrite Hstack.
Qed.

End LetterCase.

(** The failing input: a temporary handler added for ["privmsg"] is stored
    under ["privmsg"], the stack for ["PRIVMSG"] stays empty and a
    dispatch of [PRIVMSG] runs nothing, whereas the same name registered
    through [Add] is on that stack. *)
Lemma AddTmp_keeps_letter_case_witness :
  let f : Event -> tmp_outcome := fun _ => TmpReturns true in
  let g : rng := fun _ => 0 in
  let r := AddTmp "privmsg" 0 f newCaller g [] in
  let r2 := @Add ascii_externals "privmsg" (fun _ => Returns) newCaller g in
  tmp_cuid r = "privmsg:aaaaaaaaaaaaaaaaaaaa"%string
  /\ exec_stack (tmp_caller r) "privmsg"
     = [("aaaaaaaaaaaaaaaaaaaa"%string, TmpHandler f (tmp_cuid r) 0%nat)]
  /\ exec_stack (tmp_caller r) "PRIVMSG" = []
  /\ (forall client ev, exec "PRIVMSG" client ev (tmp_caller r) = ExecReturned [])
  /\ r2.1.1 = "PRIVMSG:aaaaaaaaaaaaaaaaaaaa"%string
  /\ exec_stack r2.1.2 "PRIVMSG"
     = [("aaaaaaaaaaaaaaaaaaaa"%string, HandlerFunc (fun _ => Returns))].
Proof.
  cbv zeta.
  destruct (@AddTmp_keeps_letter_case ascii_externals "privmsg" 0
              (fun _ => TmpReturns true) newCaller (fun _ => 0) [])
    as (_ & Hstack & Hexec).
  { vm_compute. discriminate. }
  split; [reflexivity|]. split; [reflexivity|].
  split; [exact (eq_trans Hstack eq_refl)|]. split; [|split; reflexivity].
  intros client ev. exact (eq_trans (Hexec client ev) eq_refl).
Defined.

(* --------------------------------------------------------------------- *)
(** ** Temporary handlers: the [done] channel                             *)
(* --------------------------------------------------------------------- *)

Lemma closes_fresh (chs : chan_store) : closes (length chs) (chs ++ [0%nat]) = 0%nat.
Proof. unfold closes. now rewrite list_lookup_middle. Qed.

Lemma closes_close_fresh (chs : chan_store) :
  closes (length chs) (close_chan (length chs) (chs ++ [0%nat])) = 1%nat.
Proof.
  unfold closes, close_chan. rewrite list_lookup_alter_eq.
  now rewrite list_lookup_middle.
Qed.

Section Triggers.
Variables (deadline : Z) (tok : string) (done : nat).

(** Once the entry is gone, every trigger is a no-op. *)
Lemma fire_absent t st :
  (remove tok st.1).1 = false -> fire deadline tok done t st = st.
Proof.
  intros Hf. pose proof (remove_false_id tok st.1 Hf) as Hid.
  destruct st as [c chs]. cbn [fst snd] in *.
  destruct t as [[|]| |]; cbn [fire tmp_goroutine deadline_goroutine];
    unfold remove_and_close, Remove; cbn [fst snd];
    try reflexivity.
  - destruct (remove tok c) as [ok c2]. cbn [fst snd] in *. now subst.
  - destruct (0 <? deadline); [|reflexivity].
    unfold deadline_goroutine, remove_and_close, Remove. cbn [fst snd].
    destruct (remove tok c) as [ok c2]. cbn [fst snd] in *. now subst.
  - now rewrite Hid.
Qed.

Lemma fire_all_absent ts st :
  (remove tok st.1).1 = false -> fire_all deadline tok done ts st = st.
Proof.
  intros Hf. unfold fire_all. induction ts as [|t ts IH]; [reflexivity|].
  cbn [fold_left]. now rewrite fire_absent.
Qed.

(** A trigger that does not ask for removal changes nothing. *)
Lemma fire_no_request t st :
  requests deadline t = false -> fire deadline tok done t st = st.
Proof.
  destruct t as [[|]| |]; cbn [requests fire tmp_goroutine]; try discriminate.
  - reflexivity.
  - now intros ->.
Qed.

(** While the entry is present, the first trigger that asks for removal
    removes it; it closes [done] unless it is the explicit [Remove]. *)
Lemma fire_present t c chs :
  (remove tok c).1 = true -> requests deadline t = true ->
  fire deadline tok done t (c, chs)
  = ((remove tok c).2,
     match t with ExplicitRemove => chs | _ => close_chan done chs end).
Proof.
  intros Hp Hr.
  destruct t as [[|]| |]; cbn [requests] in Hr; try discriminate;
    cbn [fire tmp_goroutine]; rewrite ?Hr;
    unfold deadline_goroutine, remove_and_close, Remove; cbn [fst snd];
    destruct (remove tok c) as [ok c2]; cbn [fst snd] in *; now subst.
Qed.

Lemma fire_all_present ts c chs :
  (remove tok c).1 = true ->
  fire_all deadline tok done ts (c, chs)
  = match List.find (requests deadline) ts with
    | None => (c, chs)
    | Some ExplicitRemove => ((remove tok c).2, chs)
    | Some _ => ((remove tok c).2, close_chan done chs)
    end.
Proof.
  intros Hp. unfold fire_all. induction ts as [|t ts IH]; [reflexivity|].
  cbn [fold_left List.find].
  destruct (requests deadline t) eqn:Hr.
  - rewrite (fire_present t c chs Hp Hr).
    pose proof (remove_true_then_false tok c Hp) as Hgone.
    fold (fire_all deadline tok done ts
            ((remove tok c).2,
             match t with ExplicitRemove => chs | _ => close_chan done chs end)).
    rewrite fire_all_absent by (cbn [fst]; now rewrite Hgone).
    now destruct t.
  - rewrite fire_no_request by assumption. exact IH.
Qed.

End Triggers.

(** Whatever the command name and the order of the triggers, [done] is
    closed at most once. *)
Lemma AddTmp_done_at_most_once cmd deadline f c g chs ts :
  let r := AddTmp cmd deadline f c g chs in
  (closes (tmp_done r)
     (fire_all deadline (tmp_cuid r) (tmp_done r) ts (tmp_caller r, tmp_chans r)).2
   <= 1)%nat.
Proof.
  cbv zeta. rewrite AddTmp_spec. cbn [tmp_cuid tmp_done tmp_caller tmp_chans].
  set (tok := cmd +:+ ":" +:+ _). set (c' := mkCaller _ _ _).
  destruct (remove tok c').1 eqn:Hp.
  - rewrite fire_all_present by assumption.
    destruct (List.find _ ts) as [[| |]|]; cbn [snd];
      rewrite ?closes_close_fresh, ?closes_fresh; lia.
  - rewrite fire_all_absent by assumption. cbn [snd]. rewrite closes_fresh. lia.
Qed.

(** C5 (as amended).  For a temporary handler added under a non-empty
    command name without a colon, and any sequence of removal triggers:
    [done] starts open; it is closed exactly once when the first trigger
    that asks for removal is the handler returning [true] or the deadline,
    and it is never closed when that first trigger is an explicit
    [Remove] (which removes the handler without touching [done]) or when
    nothing asks for removal.  After the first request the handler is
    gone, and every later trigger is a no-op. *)
Theorem AddTmp_done_closed cmd deadline f c g chs ts :
  cmd <> EmptyString ->
  IndexByte cmd ":" < 0 ->
  let r := AddTmp cmd deadline f c g chs in
  let tok := tmp_cuid r in
  let done := tmp_done r in
  let st := fire_all deadline tok done ts (tmp_caller r, tmp_chans r) in
  closes done (tmp_chans r) = 0%nat
  /\ closes done st.2
     = match List.find (requests deadline) ts with
       | Some (HandlerReturned _) | Some DeadlineFired => 1%nat
       | Some ExplicitRemove | None => 0%nat
       end
  /\ (is_Some (List.find (requests deadline) ts) ->
      Remove tok st.1 = (false, st.1)
      /\ forall t, fire deadline tok done t st = st)
  /\ (List.find (requests deadline) ts = None -> st = (tmp_caller r, tmp_chans r)).
Proof.
  intros Hne Hcolon. cbv zeta. rewrite AddTmp_spec.
  cbn [tmp_cuid tmp_done tmp_caller tmp_chans].
  set (uid := (rand_letters 20 g).1).
  set (tok := cmd +:+ ":" +:+ uid).
  set (c' := mkCaller _ _ _).
  assert (Hparse : cuidToID tok = (cmd, uid)) by now apply cuidToID_join.
  assert (Hp : (remove tok c').1 = true).
  { destruct (remove_cases tok c') as [[_ Hbad]|(? & ? & _ & _ & _ & _ & ->)];
      [|reflexivity].
    exfalso. rewrite Hparse in Hbad. cbn [fst snd] in Hbad.
    destruct Hbad as [?|[Hu|Hnone]]; [congruence| |].
    - now apply (uid20_nonempty g).
    - unfold c' in Hnone. cbn [external] in Hnone.
      rewrite lookup2_store_eq in Hnone. discriminate. }
  pose proof (remove_true_then_false tok c' Hp) as Hgone.
  rewrite fire_all_present by assumption.
  split; [apply closes_fresh|].
  destruct (List.find (requests deadline) ts) as [[b| |]|]; cbn [fst snd];
    rewrite ?closes_close_fresh, ?closes_fresh;
    (split; [reflexivity|]);
    (split; [|try discriminate; reflexivity]).
  all: try (intros _; split; [exact Hgone|];
            intros t; apply fire_absent; cbn [fst]; now rewrite Hgone).
  intros [? [=]].
Qed.

(** A handler with a five second deadline: a run that keeps the handler,
    then the deadline, then two late triggers; [done] is closed once. *)
Lemma AddTmp_done_closed_witness :
  let f : Event -> tmp_outcome := fun _ => TmpReturns true in
  let r := AddTmp "PRIVMSG" 5000000000 f newCaller (fun _ => 0) [] in
  let tok := tmp_cuid r in
  let done := tmp_done r in
  let ts := [HandlerReturned false; DeadlineFired; HandlerReturned true; ExplicitRemove] in
  let st := fire_all 5000000000 tok done ts (tmp_caller r, tmp_chans r) in
  closes done (tmp_chans r) = 0%nat
  /\ closes done st.2 = 1%nat
  /\ (is_Some (List.find (requests 5000000000) ts) ->
      Remove tok st.1 = (false, st.1)
      /\ forall t, fire 5000000000 tok done t st = st)
  /\ (List.find (requests 5000000000) ts = None -> st = (tmp_caller r, tmp_chans r)).
Proof.
  cbv zeta.
  apply (AddTmp_done_closed "PRIVMSG" 5000000000 (fun _ => TmpReturns true)
           newCaller (fun _ => 0) []
           [HandlerReturned false; DeadlineFired; HandlerReturned true; ExplicitRemove]).
  - discriminate.
  - vm_compute. reflexivity.
Defined.

(** C5, as stated, fails when the explicit [Remove] comes first: the
    handler is removed, the later triggers are no-ops, and [done] has
    never been closed. *)
Lemma AddTmp_done_counterexample :
  let f : Event -> tmp_outcome := fun _ => TmpReturns true in
  let r := AddTmp "PRIVMSG" 5000000000 f newCaller (fun _ => 0) [] in
  let tok := tmp_cuid r in
  let done := tmp_done r in
  let c' := tmp_caller r in
  let st := fire_all 5000000000 tok done
              [ExplicitRemove; HandlerReturned true; DeadlineFired] (c', tmp_chans r) in
  Remove tok c' = (true, st.1)
  /\ lookup2 (external st.1) "PRIVMSG" "aaaaaaaaaaaaaaaaaaaa" = None
  /\ closes done st.2 = 0%nat
  /\ closes done st.2 <> 1%nat.
Proof. cbv zeta. repeat split. vm_compute. discriminate. Qed.

(* --------------------------------------------------------------------- *)
(** ** The dispatcher                                                     *)
(* --------------------------------------------------------------------- *)

Lemma no_panics_filter (runs : list (outcome * list task)) :
  Forall (fun r => r.1 = Returns) runs ->
  length (List.filter (fun r => is_panic r.1) runs) = 0%nat.
Proof.
  induction 1 as [|r runs Hr _ IH]; [reflexivity|].
  cbn [List.filter]. rewrite Hr. exact IH.
Qed.

Lemma some_panic_filter (runs : list (outcome * list task)) :
  Exists (fun r => r.1 = Panics) runs ->
  (0 < length (List.filter (fun r => is_panic r.1) runs))%nat.
Proof.
  induction 1 as [r runs Hr|r runs _ IH]; cbn [List.filter].
  - rewrite Hr. cbn. lia.
  - destruct (is_panic r.1); cbn [length]; lia.
Qed.

(** [exec] returns when the wait group is idle and every handler on the
    stack returns. *)
Lemma exec_returns command client ev c :
  wg c = 0%nat ->
  Forall (fun e => (Execute e.2 ev).1 = Returns) (exec_stack c command) ->
  exec command client ev c
  = ExecReturned (concat (map snd (map (fun e => Execute e.2 ev) (exec_stack c command)))).
Proof.
  intros Hwg Hall. unfold exec.
  rewrite no_panics_filter by (apply Forall_map; exact Hall).
  cbn [Nat.ltb Nat.leb andb]. rewrite Hwg.
  replace (0 + length (exec_stack c command) - (length (exec_stack c command) - 0))%nat
    with 0%nat by lia.
  reflexivity.
Qed.

(** A panic with no recovery callback ends the process. *)
Lemma exec_crashes command client ev c :
  RecoverFunc (config client) = false ->
  Exists (fun e => (Execute e.2 ev).1 = Panics) (exec_stack c command) ->
  exec command client ev c = ExecCrashed.
Proof.
  intros Hrec Hex. unfold exec.
  assert (Hp : (0 <? length (List.filter (fun r => is_panic r.1)
                       (map (fun e => Execute e.2 ev) (exec_stack c command))))%nat = true).
  { apply Nat.ltb_lt, some_panic_filter, Exists_map. exact Hex. }
  rewrite Hp, Hrec. reflexivity.
Qed.

(** A recovered panic leaves the wait group above zero: [exec] never
    returns. *)
Lemma exec_hangs command client ev c :
  RecoverFunc (config client) = true ->
  Exists (fun e => (Execute e.2 ev).1 = Panics) (exec_stack c command) ->
  exists n, (0 < n)%nat /\ exec command client ev c = ExecHung n.
Proof.
  intros Hrec Hex. unfold exec.
  set (runs := map _ _).
  assert (Hp : (0 < length (List.filter (fun r => is_panic r.1) runs))%nat)
    by (apply some_panic_filter, Exists_map; exact Hex).
  assert (Hle : (length (List.filter (fun r => is_panic r.1) runs)
                 <= length (exec_stack c command))%nat).
  { etransitivity; [apply List.filter_length_le|]. unfold runs. now rewrite length_map. }
  rewrite Hrec, andb_false_r.
  set (n := (wg c + _ - _)%nat).
  assert (0 < n)%nat by (unfold n; lia).
  exists n. split; [assumption|].
  destruct (n =? 0)%nat eqn:E; [apply Nat.eqb_eq in E; lia | reflexivity].
Qed.

Section DispatcherFacts.
Context {X : Externals}.

(** The three delivery steps for [ev], in order. *)
Let steps (ev : Event) : list delivery :=
  [DeliverExec ALLEVENTS ev; DeliverExec (Command ev) ev]
  ++ match decodeCTCP ev with Some ctcp => [DeliverCTCP ctcp] | None => [] end.

(** Whatever happens, the steps issued are a prefix of the three steps,
    beginning with the wildcard step, and a call that returns has
    issued them all. *)
Lemma RunHandlers_prefix (c : Client) (ev : Event) :
  let r := RunHandlers c (Some ev) in
  (exists rest, steps ev = r.1.1 ++ rest)
  /\ (exists tl, r.1.1 = DeliverExec ALLEVENTS ev :: tl)
  /\ (r.2 = RunReturned -> r.1.1 = steps ev).
Proof.
  cbv zeta. unfold steps. split; [|split].
  - unfold RunHandlers.
    destruct (exec ALLEVENTS c ev (Handlers c)); cbn [fst snd];
      [|eexists; reflexivity..].
    destruct (exec (Command ev) c ev (Handlers c)); cbn [fst snd];
      [|eexists; reflexivity..].
    destruct (decodeCTCP ev); cbn [fst snd]; exists []; now rewrite app_nil_r.
  - unfold RunHandlers.
    destruct (exec ALLEVENTS c ev (Handlers c)); cbn [fst snd]; eauto.
    destruct (exec (Command ev) c ev (Handlers c)); cbn [fst snd]; eauto.
    destruct (decodeCTCP ev); cbn [fst snd]; eauto.
  - unfold RunHandlers.
    destruct (exec ALLEVENTS c ev (Handlers c)); cbn [fst snd]; try discriminate.
    destruct (exec (Command ev) c ev (Handlers c)); cbn [fst snd]; try discriminate.
    destruct (decodeCTCP ev); reflexivity.
Qed.

(** With an idle wait group and handlers that return, the three steps
    are issued in order, the CTCP step exactly when the event decodes
    as CTCP, and the call returns. *)
Lemma RunHandlers_all_steps (c : Client) (ev : Event) :
  wg (Handlers c) = 0%nat ->
  Forall (fun e => (Execute e.2 ev).1 = Returns) (exec_stack (Handlers c) ALLEVENTS) ->
  Forall (fun e => (Execute e.2 ev).1 = Returns) (exec_stack (Handlers c) (Command ev)) ->
  (RunHandlers c (Some ev)).1.1 = steps ev
  /\ (RunHandlers c (Some ev)).2 = RunReturned.
Proof.
  intros Hwg H1 H2. unfold RunHandlers, steps.
  rewrite (exec_returns _ c ev _ Hwg H1), (exec_returns _ c ev _ Hwg H2).
  destruct (decodeCTCP ev); split; reflexivity.
Qed.

(** A panic with no recovery callback ends the process after the
    first step (recovery is opt-in). *)
Lemma RunHandlers_unrecovered_panic (c : Client) (ev : Event) :
  RecoverFunc (config c) = false ->
  Exists (fun e => (Execute e.2 ev).1 = Panics) (exec_stack (Handlers c) ALLEVENTS) ->
  RunHandlers c (Some ev) = ([DeliverExec ALLEVENTS ev], [], RunCrashed).
Proof.
  intros Hrec Hex. unfold RunHandlers.
  now rewrite (exec_crashes _ c ev _ Hrec Hex).
Qed.

(** C9.  The delivery steps do depend on each other's outcome.  With a
    recovery callback configured, a handler that panics is recovered,
    but its goroutine never reaches [c.wg.Done()], so the step it
    belongs to never ends.  When it is a wildcard handler, the
    wildcard step is the only one issued: the handlers of the event's
    own command are not run and the CTCP registry is not invoked.
    When it is a handler of the event's own command (the wildcard
    handlers having returned), the first two steps are issued and the
    CTCP registry is not invoked, also for an event that decodes as
    CTCP. *)
Theorem RunHandlers_recovered_panic_hangs (c : Client) (ev : Event) :
  RecoverFunc (config c) = true ->
  (Exists (fun e => (Execute e.2 ev).1 = Panics) (exec_stack (Handlers c) ALLEVENTS) ->
   RunHandlers c (Some ev) = ([DeliverExec ALLEVENTS ev], [], RunHung))
  /\ (wg (Handlers c) = 0%nat ->
      Forall (fun e => (Execute e.2 ev).1 = Returns) (exec_stack (Handlers c) ALLEVENTS) ->
      Exists (fun e => (Execute e.2 ev).1 = Panics) (exec_stack (Handlers c) (Command ev)) ->
      exists spawned,
        RunHandlers c (Some ev)
        = ([DeliverExec ALLEVENTS ev; DeliverExec (Command ev) ev], spawned, RunHung)).
Proof.
  intros Hrec. split.
  - intros Hex. unfold RunHandlers.
    destruct (exec_hangs ALLEVENTS c ev (Handlers c) Hrec Hex) as (n & _ & ->).
    reflexivity.
  - intros Hwg Hall Hex. unfold RunHandlers.
    rewrite (exec_returns _ c ev _ Hwg Hall).
    destruct (exec_hangs (Command ev) c ev (Handlers c) Hrec Hex) as (n & _ & ->).
    eexists. reflexivity.
Qed.

End DispatcherFacts.

(** The failing input: a wildcard handler that panics and a handler for
    [PRIVMSG], with a recovery callback configured.  The dispatch of a
    [PRIVMSG] event issues the wildcard step and never returns; the
    handler registered for [PRIVMSG] is not run. *)
Lemma RunHandlers_recovered_panic_hangs_witness :
  let g : rng := fun _ => 0 in
  let h1 := @Add ascii_externals "*" (fun _ => Panics) newCaller g in
  let h2 := @Add ascii_externals "privmsg" (fun _ => Returns) h1.1.2 h1.2 in
  let c := mkClient (mkConfig "irc.example.org" "" "bot" "bot" "" false 0 true)
                    h2.1.2 None [] [] in
  let ev := mkEvent "PRIVMSG" ["#chan"%string] "hello" false in
  @RunHandlers ascii_externals c (Some ev) = ([DeliverExec "*" ev], [], RunHung)
  /\ ~ In (DeliverExec "PRIVMSG" ev) (@RunHandlers ascii_externals c (Some ev)).1.1.
Proof.
  cbv zeta.
  match goal with
  | |- @RunHandlers _ ?c (Some ?ev) = _ /\ _ =>
      pose proof (proj1 (@RunHandlers_recovered_panic_hangs ascii_externals c ev eq_refl))
        as H
  end.
  assert (Hex : Exists (fun e : string * Handler =>
                  (Execute e.2 (mkEvent "PRIVMSG" ["#chan"%string] "hello" false)).1 = Panics)
                  (exec_stack
                     (@Add ascii_externals "privmsg" (fun _ => Returns)
                        (@Add ascii_externals "*" (fun _ => Panics) newCaller (fun _ => 0)).1.2
                        (@Add ascii_externals "*" (fun _ => Panics) newCaller (fun _ => 0)).2).1.2
                     "*")).
  { vm_compute. apply Exists_cons_hd. reflexivity. }
  specialize (H Hex). split; [exact H|].
  rewrite H. cbn [fst snd]. intros [Heq|[]]. discriminate.
Defined.

(** The same handlers dispatched when they all return: both steps are
    issued and the call returns. *)
Example RunHandlers_all_steps_example :
  let g : rng := fun _ => 0 in
  let h1 := @Add ascii_externals "*" (fun _ => Returns) newCaller g in
  let h2 := @Add ascii_externals "privmsg" (fun _ => Returns) h1.1.2 h1.2 in
  let c := mkClient (mkConfig "irc.example.org" "" "bot" "bot" "" false 0 false)
                    h2.1.2 None [] [] in
  let ev := mkEvent "PRIVMSG" ["#chan"%string] "hello" false in
  let r := @RunHandlers ascii_externals c (Some ev) in
  r.1.1 = [DeliverExec "*" ev; DeliverExec "PRIVMSG" ev] /\ r.2 = RunReturned.
Proof. cbv zeta. split; reflexivity. Qed.

(** Without a recovery callback the panic of the wildcard handler ends
    the process after the first step. *)
Example RunHandlers_unrecovered_panic_example :
  let g : rng := fun _ => 0 in
  let h1 := @Add ascii_externals "*" (fun _ => Panics) newCaller g in
  let h2 := @Add ascii_externals "privmsg" (fun _ => Returns) h1.1.2 h1.2 in
  let c := mkClient (mkConfig "irc.example.org" "" "bot" "bot" "" false 0 false)
                    h2.1.2 None [] [] in
  let ev := mkEvent "PRIVMSG" ["#chan"%string] "hello" false in
  @RunHandlers ascii_externals c (Some ev) = ([DeliverExec "*" ev], [], RunCrashed).
Proof. reflexivity. Qed.

(* --------------------------------------------------------------------- *)
(** ** [Connect] and the display name                                     *)
(* --------------------------------------------------------------------- *)

Lemma tx_write_all (es : list Event) (c : Client) :
  tx (fold_left (fun c e => write e c) es c) = tx c ++ es
  /\ config (fold_left (fun c e => write e c) es c) = config c.
Proof.
  revert c. induction es as [|e es IH]; intros c; cbn [fold_left].
  - now rewrite app_nil_r.
  - destruct (IH (write e c)) as [-> ->]. cbn [write tx config].
    now rewrite <- app_assoc.
Qed.

Section ConnectFacts.
Context {X : Externals}.

(** The display name after the handshake. *)
Let new_name (cf : Config) : string :=
  if String.eqb (Name cf) "" then User cf else Name cf.

(** The handshake rewrites no option but [Name], and queues PASS (when
    a password is set), NICK, USER with the new display name, and the
    capability request, in this order. *)
Lemma handshake_spec (c : Client) :
  let cf' := set_Name (new_name (config c)) (config c) in
  config (handshake c) = cf'
  /\ tx (handshake c)
     = tx c
       ++ (if negb (String.eqb (Password (config c)) "")
           then [mkEvent PASS [Password (config c)] "" false] else [])
       ++ [mkEvent NICK [Nick (config c)] "" false;
           mkEvent USER [User (config c); "+iw"; "*"]%string (new_name (config c)) false]
       ++ listCAP cf'.
Proof.
  cbv zeta. unfold handshake, new_name.
  destruct c as [cf hs k t r]. destruct cf as [sv pw ni us na fl pd rf].
  cbn [config Password Nick Name User tx].
  destruct (negb (String.eqb pw ""));
    cbn [write config tx Handlers conn rx Name User];
    destruct (String.eqb na "") eqn:En;
    cbn [write config set_config set_Name tx Handlers conn rx Name User
         Server Password Nick AllowFlood PingDelay RecoverFunc];
    match goal with
    | |- context [fold_left _ ?es ?c0] =>
        destruct (tx_write_all es c0) as [-> ->]
    end;
    cbn [tx config write set_config set_Name Handlers conn rx Name User
         Server Password Nick AllowFlood PingDelay RecoverFunc];
    rewrite <- ?app_assoc; cbn [app];
    split; reflexivity.
Qed.


End ConnectFacts.



(* --------------------------------------------------------------------- *)
(** ** The read loop                                                      *)
(* --------------------------------------------------------------------- *)

(** After a failed decode the loop goes on: the error is sent on [errs],
    the nil event on [rx], and the next iteration starts. *)
Lemma readLoop_after_failure err rest errs rx :
  readLoop (ReadLine (DecodeFailed err) :: rest) errs rx
  = readLoop rest (errs ++ [err]) (rx ++ [None]).
Proof. reflexivity. Qed.

(** The send loop, for comparison, returns right after reporting. *)
Lemma sendLoop_returns_on_error ev now err rest k errs :
  exists k', sendLoop (SendEvent ev now (Some err) :: rest) k errs
             = (LoopReturned, k', errs ++ [err]).
Proof. eexists. reflexivity. Qed.

(** C2.  The read loop does not exit on a decode failure.  As long as
    [done] is not signalled it keeps running whatever [decode] returns:
    every failed decode sends its error on the error channel and then the
    nil event on the inbound queue, and the loop goes on to the next
    decode, whose result is pushed onto the inbound queue as well. *)
Theorem readLoop_continues_after_decode_failure
    (lines : list decode_result) (errs : list error) (rx : list (option Event)) :
  readLoop (map ReadLine lines) errs rx
  = (LoopRunning,
     errs ++ omap (fun r => (decode r).2) lines,
     rx ++ map (fun r => (decode r).1) lines).
Proof.
  revert errs rx. induction lines as [|r lines IH]; intros errs rx.
  - cbn. now rewrite !app_nil_r.
  - cbn [map readLoop]. destruct r as [e|err]; cbn [decode omap map fst snd];
      rewrite IH; cbn [option_bind mbind]; now rewrite <- !app_assoc.
Qed.

(** The failing input: one failed decode followed by a message. *)
Example readLoop_decode_failure_example (err : error) (ev : Event) :
  readLoop [ReadLine (DecodeFailed err); ReadLine (Decoded ev)] [] []
  = (LoopRunning, [err], [None; Some ev]).
Proof. reflexivity. Qed.

(* --------------------------------------------------------------------- *)
(** ** The keepalive loop                                                 *)
(* --------------------------------------------------------------------- *)

(** A goroutine that holds a read lock cannot take the write lock. *)
Lemma Lock_after_RLock m m' : RLock m = Some m' -> Lock m' = None.
Proof.
  unfold RLock, Lock. destruct (writer m); [discriminate|].
  intros [= <-]. reflexivity.
Qed.

(** C8.  One tick of the keepalive loop, in closed form.  Once the read
    lock is taken, the loop sends the timeout error and returns exactly
    when the time since the last pong strictly exceeds the ping delay
    plus 60 seconds.  Otherwise it asks for the write lock while its own
    read lock is still held (the [RUnlock] is deferred to the return of
    the function) and waits forever: no new last-ping time is recorded
    and no ping is sent. *)
Theorem pingLoop_tick_closed_form (delay t1 t2 t3 : Z) (st : pingState) :
  pingLoop_tick delay t1 t2 t3 st
  = match RLock (p_mu st) with
    | None => TickBlocked st
    | Some m =>
        if Dur.add delay (60 * Dur.Second) <? Dur.time_sub t1 (lastPong (p_conn st))
        then TickTimedOut
               (mkPing (p_conn st) (Nat.iter (S (p_deferred st)) RUnlock m) 0
                       (p_errs st ++ [ErrTimedOut]) (p_pings st))
        else TickBlocked
               (mkPing (p_conn st) m (S (p_deferred st)) (p_errs st) (p_pings st))
    end.
Proof.
  unfold pingLoop_tick. destruct (RLock (p_mu st)) as [m|] eqn:E; [|reflexivity].
  cbn [p_conn p_mu p_deferred p_errs p_pings].
  destruct (_ <? _); [reflexivity|].
  now rewrite (Lock_after_RLock _ _ E).
Qed.

(** The ways a tick can end: never with a ping; with the timeout, the
    read lock being released on the way out; or blocked, with the
    connection and the pings as they were. *)
Lemma pingLoop_tick_outcomes delay t1 t2 t3 st :
  match pingLoop_tick delay t1 t2 t3 st with
  | TickPinged _ => False
  | TickTimedOut st' =>
      exists m, RLock (p_mu st) = Some m
                /\ st' = mkPing (p_conn st) (Nat.iter (S (p_deferred st)) RUnlock m) 0
                               (p_errs st ++ [ErrTimedOut]) (p_pings st)
  | TickBlocked st' => p_conn st' = p_conn st /\ p_pings st' = p_pings st
  end.
Proof.
  unfold pingLoop_tick. destruct (RLock (p_mu st)) as [m|] eqn:E; [|auto].
  cbn [p_conn p_mu p_deferred p_errs p_pings].
  destruct (_ <? _); [eauto|].
  rewrite (Lock_after_RLock _ _ E). auto.
Qed.

(** No tick ever reaches the ping. *)
Lemma pingLoop_tick_never_pings delay t1 t2 t3 st st' :
  pingLoop_tick delay t1 t2 t3 st <> TickPinged st'.
Proof.
  intros H. pose proof (pingLoop_tick_outcomes delay t1 t2 t3 st) as Ho.
  now rewrite H in Ho.
Qed.

(** Whatever the script, the loop never records a new last-ping time and
    never sends a ping. *)
Lemma pingLoop_run_never_pings delay script st :
  let r := pingLoop_run delay script st in
  p_pings r.2 = p_pings st /\ lastPing (p_conn r.2) = lastPing (p_conn st).
Proof.
  cbv zeta. destruct script as [|[|t1 t2 t3] rest]; cbn [pingLoop_run];
    [split; reflexivity..|].
  pose proof (pingLoop_tick_outcomes delay t1 t2 t3 st) as Ho.
  destruct (pingLoop_tick delay t1 t2 t3 st) as [st'|st'|st']; cbn [snd].
  - destruct Ho as (m & _ & ->). split; reflexivity.
  - contradiction.
  - destruct Ho as [-> ->]. split; reflexivity.
Qed.

(** The first tick of a session with a 20 second ping delay, 40 seconds
    after the start: the link is alive, and the loop blocks with
    [lastPing] still at its initial value and nothing sent. *)
Example pingLoop_first_tick_blocks :
  let s := Dur.Second in
  let st0 := mkPing (mkConn 0 0 true 0 0) (mkMutex 0 false) 0 [] [] in
  pingLoop (20 * s) 0 0 [PingTick (40 * s) (40 * s) (40 * s);
                         PingTick (60 * s) (60 * s) (60 * s)] st0
  = (PingBlocked, mkPing (mkConn 0 0 true 0 0) (mkMutex 1 false) 1 [] []).
Proof. reflexivity. Qed.

(** A tick more than [delay + 60s] after the last pong reports the
    timeout and returns, releasing the read lock. *)
Example pingLoop_times_out :
  let s := Dur.Second in
  let st0 := mkPing (mkConn 0 0 true 0 0) (mkMutex 0 false) 0 [] [] in
  pingLoop_run (20 * s) [PingTick (81 * s) (81 * s) (81 * s)] st0
  = (PingReturned, mkPing (mkConn 0 0 true 0 0) (mkMutex 0 false) 0 [ErrTimedOut] []).
Proof. reflexivity. Qed.

(* ===================================================================== *)
(** * Part III: further properties of the code                            *)
(* ===================================================================== *)

(* --------------------------------------------------------------------- *)
(** ** Parsing tokens                                                     *)
(* --------------------------------------------------------------------- *)

Lemma slice_rejoin s i :
  (i < String.length s)%nat ->
  slice_to s i +:+ String (byte_at s i) (slice_from s (S i)) = s.
Proof.
  revert i. induction s as [|a s IH]; intros i Hi; cbn [String.length] in Hi; [lia|].
  destruct i as [|i].
  - now destruct s.
  - cbn [slice_to slice_from]. rewrite append_cons. f_equal.
    change (byte_at (String a s) (S i)) with (byte_at s i).
    apply IH. lia.
Qed.

Lemma IndexByte_hit_byte s c :
  0 <= IndexByte s c -> byte_at s (Z.to_nat (IndexByte s c)) = c.
Proof.
  induction s as [|a s IH]; cbn [IndexByte]; [lia|].
  destruct (Ascii.eqb a c) eqn:E.
  - apply Ascii.eqb_eq in E. now subst.
  - destruct (IndexByte s c <? 0) eqn:E2; [lia|]. apply Z.ltb_ge in E2.
    intros _.
    replace (Z.to_nat (IndexByte s c + 1)) with (S (Z.to_nat (IndexByte s c))) by lia.
    change (byte_at (String a s) (S (Z.to_nat (IndexByte s c))))
      with (byte_at s (Z.to_nat (IndexByte s c))).
    now apply IH.
Qed.

Lemma IndexByte_slice_to_miss s c :
  0 <= IndexByte s c -> IndexByte (slice_to s (Z.to_nat (IndexByte s c))) c < 0.
Proof.
  induction s as [|a s IH]; cbn [IndexByte]; [lia|].
  destruct (Ascii.eqb a c) eqn:E.
  { intros _. change (Z.to_nat 0) with 0%nat. cbn [slice_to IndexByte]. lia. }
  destruct (IndexByte s c <? 0) eqn:E2; [lia|]. apply Z.ltb_ge in E2.
  intros _.
  replace (Z.to_nat (IndexByte s c + 1)) with (S (Z.to_nat (IndexByte s c))) by lia.
  cbn [slice_to IndexByte]. rewrite E.
  specialize (IH E2).
  destruct (IndexByte (slice_to s (Z.to_nat (IndexByte s c))) c <? 0) eqn:E3; [lia|].
  apply Z.ltb_ge in E3. lia.
Qed.

(** X1.  [cuidToID] splits at the first colon and loses nothing: when the
    input holds a colon, the two parts joined by a colon give the input
    back and the command part holds no colon; when it holds none, both
    parts are empty. *)
Theorem cuidToID_rejoin (input : string) :
  let cmd := (cuidToID input).1 in
  let uid := (cuidToID input).2 in
  (0 <= IndexByte input ":" ->
     cmd +:+ ":" +:+ uid = input /\ IndexByte cmd ":" < 0)
  /\ (IndexByte input ":" < 0 -> cmd = EmptyString /\ uid = EmptyString).
Proof.
  cbv zeta. unfold cuidToID.
  destruct (IndexByte input ":" <? 0) eqn:E.
  - apply Z.ltb_lt in E. split; [lia | auto].
  - apply Z.ltb_ge in E. split; [|lia]. intros _. cbn [fst snd].
    pose proof (IndexByte_lt_length input ":") as Hlt.
    split; [|now apply IndexByte_slice_to_miss].
    replace (Z.to_nat (IndexByte input ":" + 1))
      with (S (Z.to_nat (IndexByte input ":"))) by lia.
    rewrite <- (IndexByte_hit_byte input ":" E) at 2.
    apply slice_rejoin. lia.
Qed.

Lemma cuidToID_rejoin_witness :
  (cuidToID "PRIVMSG:abc").1 +:+ ":" +:+ (cuidToID "PRIVMSG:abc").2 = "PRIVMSG:abc"%string
  /\ IndexByte (cuidToID "PRIVMSG:abc").1 ":" < 0.
Proof.
  apply (proj1 (cuidToID_rejoin "PRIVMSG:abc")). vm_compute. discriminate.
Defined.

(* --------------------------------------------------------------------- *)
(** ** Counting and clearing                                              *)
(* --------------------------------------------------------------------- *)

Section FoldSizes.
Implicit Types (m : handler_map) (inner : gmap string Handler).

Let add_size : string -> gmap string Handler -> nat -> nat :=
  fun _ inner total => (total + size inner)%nat.

Lemma fold_size_insert m k inner :
  m !! k = None ->
  map_fold add_size 0%nat (<[k := inner]> m)
  = (map_fold add_size 0%nat m + size inner)%nat.
Proof.
  intros Hk. rewrite map_fold_insert_L; [reflexivity| |assumption].
  intros. unfold add_size. lia.
Qed.

Lemma fold_size_delete m k inner :
  m !! k = Some inner ->
  map_fold add_size 0%nat m
  = (map_fold add_size 0%nat (delete k m) + size inner)%nat.
Proof.
  intros Hk. rewrite (map_fold_delete_L _ _ k inner m); [reflexivity| |assumption].
  intros. unfold add_size. lia.
Qed.

Lemma fold_size_update m k inner inner' :
  m !! k = Some inner ->
  (map_fold add_size 0%nat (<[k := inner']> m) + size inner
   = map_fold add_size 0%nat m + size inner')%nat.
Proof.
  intros Hk. rewrite <- insert_delete_eq.
  rewrite fold_size_insert by apply lookup_delete_eq.
  rewrite (fold_size_delete m k inner Hk). lia.
Qed.

End FoldSizes.

(** X2.  A successful [Remove] lowers [Len] by exactly one, and a failed
    one leaves it as it was. *)
Theorem Len_Remove (tok : string) (c : Caller) :
  (Len (Remove tok c).2 + (if (Remove tok c).1 then 1 else 0) = Len c)%nat.
Proof.
  unfold Remove.
  destruct (remove_cases tok c)
    as [[-> _]|(inner & h & _ & _ & Hm & Hi & ->)]; cbn [fst snd]; [lia|].
  unfold Len. cbn [external].
  pose proof (fold_size_update (external c) (cuidToID tok).1 inner
                (delete (cuidToID tok).2 inner) Hm) as Hu.
  rewrite map_size_delete_Some in Hu by eauto.
  assert (size inner <> 0)%nat.
  { intros Hz. apply map_size_empty_inv in Hz. subst. now rewrite lookup_empty in Hi. }
  lia.
Qed.

(** Storing one handler: the total grows by one unless the identifier is
    already bound under that command, in which case the old handler is
    overwritten. *)
Lemma fold_size_store (m : handler_map) cmd uid h :
  map_fold (fun _ inner total => (total + size inner)%nat) 0%nat (store m cmd uid h)
  = (map_fold (fun _ inner total => (total + size inner)%nat) 0%nat m
     + match lookup2 m cmd uid with Some _ => 0 | None => 1 end)%nat.
Proof.
  unfold store, lookup2. destruct (m !! cmd) as [inner|] eqn:Hm.
  - pose proof (fold_size_update m cmd inner (<[uid := h]> inner) Hm) as Hu.
    rewrite map_size_insert in Hu. destruct (inner !! uid); cbn in Hu; lia.
  - rewrite fold_size_insert by assumption.
    rewrite map_size_insert, lookup_empty, map_size_empty. reflexivity.
Qed.

Section CountFacts.
Context {X : Externals}.

(** X3.  An external registration raises [Len] by one when the fresh
    identifier is not yet bound under the upper-cased command and
    leaves it unchanged when it is (the older handler is overwritten);
    an internal registration never changes [Len]. *)
Theorem Len_register (is_internal : bool) cmd h c g :
  let r := register is_internal cmd h c g in
  Len r.1.2
  = (Len c + if is_internal then 0
             else match lookup2 (external c) (ToUpper cmd) (rand_letters 20 g).1 with
                  | Some _ => 0
                  | None => 1
                  end)%nat.
Proof.
  cbv zeta. rewrite register_spec. cbn [fst snd].
  destruct is_internal; unfold Len; cbn [external]; [lia|].
  apply fold_size_store.
Qed.

Lemma fold_count_miss (m : handler_map) k :
  m !! k = None ->
  map_fold (fun command inner total =>
              if String.eqb command k then (total + size inner)%nat else total)
           0%nat m = 0%nat.
Proof.
  revert m. apply (map_fold_weak_ind (fun r m => m !! k = None -> r = 0%nat)).
  - reflexivity.
  - intros i x m r Hi IH Hk.
    destruct (decide (i = k)) as [->|Hne]; [now rewrite lookup_insert_eq in Hk|].
    rewrite lookup_insert_ne in Hk by assumption.
    apply String.eqb_neq in Hne. rewrite Hne. auto.
Qed.

Lemma Count_bucket cmd c :
  Count cmd c
  = match external c !! ToUpper cmd with
    | Some inner => size inner
    | None => 0%nat
    end.
Proof.
  unfold Count. cbv zeta. set (k := ToUpper cmd).
  destruct (external c !! k) as [inner|] eqn:Hk.
  - rewrite (map_fold_delete_L _ _ k inner (external c)); [| |assumption].
    + now rewrite String.eqb_refl, fold_count_miss by apply lookup_delete_eq.
    + intros j1 j2 z1 z2 y _ _ _.
      destruct (String.eqb j1 k), (String.eqb j2 k); lia.
  - now rewrite fold_count_miss.
Qed.

(** X4.  [Count] is the number of handlers stored under the
    upper-cased command name, zero when there is none, and never more
    than [Len]. *)
Theorem Count_spec cmd c :
  Count cmd c
  = match external c !! ToUpper cmd with
    | Some inner => size inner
    | None => 0%nat
    end
  /\ (Count cmd c <= Len c)%nat.
Proof.
  split; [apply Count_bucket|].
  rewrite Count_bucket. unfold Len.
  destruct (external c !! ToUpper cmd) as [inner|] eqn:Hk; [|lia].
  rewrite (fold_size_delete _ _ inner Hk). lia.
Qed.

(** X5.  [Clear] empties the upper-cased command: its [Count] drops to
    zero, [Len] drops by what the count was, no token of that command
    can be removed any more, and the other commands and the internal
    namespace are untouched. *)
Theorem Clear_spec cmd c :
  let c' := Clear cmd c in
  Count cmd c' = 0%nat
  /\ (Len c' + Count cmd c = Len c)%nat
  /\ internal c' = internal c
  /\ (forall uid, lookup2 (external c') (ToUpper cmd) uid = None)
  /\ (forall cmd', cmd' <> ToUpper cmd -> external c' !! cmd' = external c !! cmd')
  /\ (forall tok, (cuidToID tok).1 = ToUpper cmd -> Remove tok c' = (false, c')).
Proof.
  cbv zeta.
  assert (Hgone : external (Clear cmd c) !! ToUpper cmd = None).
  { unfold Clear. cbv zeta. destruct (external c !! ToUpper cmd) eqn:E;
      cbn [external]; [apply lookup_delete_eq | assumption]. }
  split; [|split; [|split; [|split; [|split]]]].
  - rewrite Count_bucket. now rewrite Hgone.
  - rewrite (Count_bucket cmd c). unfold Clear. cbv zeta.
    destruct (external c !! ToUpper cmd) as [inner|] eqn:E; [|lia].
    unfold Len. cbn [external]. now rewrite (fold_size_delete _ _ inner E).
  - unfold Clear. cbv zeta. now destruct (external c !! ToUpper cmd).
  - intros uid. unfold lookup2. now rewrite Hgone.
  - intros cmd' Hne. unfold Clear. cbv zeta.
    destruct (external c !! ToUpper cmd); [|reflexivity].
    cbn [external]. now rewrite lookup_delete_ne.
  - intros tok Htok. unfold Remove.
    destruct (remove_cases tok (Clear cmd c))
      as [[-> _]|(inner & h & _ & _ & Hm & _ & _)]; [reflexivity|].
    rewrite Htok, Hgone in Hm. discriminate.
Qed.

End CountFacts.

(** X6.  [ClearAll] removes every external handler and nothing else:
    [Len] is zero, no token can be removed any more, and the stack that
    [exec] builds for any command holds exactly the internal handlers.
    [clearInternal] is the mirror image: the external namespace and
    [Len] are untouched and the stacks hold exactly the external
    handlers. *)
Theorem ClearAll_spec (c : Caller) :
  (Len (ClearAll c) = 0%nat
   /\ internal (ClearAll c) = internal c
   /\ (forall tok, Remove tok (ClearAll c) = (false, ClearAll c))
   /\ (forall command,
         exec_stack (ClearAll c) command = handlers_of (internal c) command))
  /\ (Len (clearInternal c) = Len c
      /\ external (clearInternal c) = external c
      /\ (forall tok, (Remove tok (clearInternal c)).1 = (Remove tok c).1)
      /\ (forall command,
            exec_stack (clearInternal c) command = handlers_of (external c) command)).
Proof.
  split; (split; [reflexivity|]); (split; [reflexivity|]); split.
  - intros tok. unfold Remove.
    destruct (remove_cases tok (ClearAll c))
      as [[-> _]|(inner & h & _ & _ & Hm & _ & _)]; [reflexivity|].
    cbn [ClearAll external] in Hm. now rewrite lookup_empty in Hm.
  - intros command. unfold exec_stack, handlers_of. cbn [ClearAll internal external].
    rewrite lookup_empty. apply app_nil_r.
  - intros tok. unfold Remove, remove. cbn [clearInternal external].
    destruct (cuidToID tok) as [cmd uid].
    destruct ((String.length cmd =? 0) || (String.length uid =? 0))%nat; [reflexivity|].
    destruct (external c !! cmd) as [inner|]; [|reflexivity].
    now destruct (inner !! uid).
  - intros command. unfold exec_stack, handlers_of. cbn [clearInternal internal external].
    now rewrite lookup_empty.
Qed.

(* --------------------------------------------------------------------- *)
(** ** Background handlers and the dispatcher                             *)
(* --------------------------------------------------------------------- *)

Lemma Execute_background h ev :
  is_background h = true ->
  (Execute h ev).1 = Returns /\ length (Execute h ev).2 = 1%nat.
Proof. destruct h; cbn; intros; try discriminate; auto. Qed.

Lemma spawned_length (stack : list (string * Handler)) ev :
  Forall (fun e => is_background e.2 = true) stack ->
  length (concat (map snd (map (fun e => Execute e.2 ev) stack))) = length stack.
Proof.
  induction 1 as [|e stack He _ IH]; [reflexivity|].
  cbn [map concat]. rewrite length_app, IH.
  now rewrite (proj2 (Execute_background _ ev He)).
Qed.

(** The goroutines started by a stack of [AddBg] handlers, one per
    handler and in stack order. *)
Lemma spawned_bg (client : Client) (stack : list (string * Handler)) ev :
  Forall (fun e => exists f, e.2 = BgHandler f
                   /\ (RecoverFunc (config client) = true \/ f ev = Returns)) stack ->
  Forall (fun e => (Execute e.2 ev).1 = Returns) stack
  /\ Forall2 (fun e t => exists f, e.2 = BgHandler f /\ t = BgTask f ev
                          /\ bg_goroutine client f ev <> TaskCrashed)
       stack (concat (map snd (map (fun e => Execute e.2 ev) stack))).
Proof.
  induction 1 as [|e stack (f & Hf & Hsafe) _ [IH1 IH2]]; [split; constructor|].
  split.
  - constructor; [now rewrite Hf | exact IH1].
  - cbn [map concat]. rewrite Hf. cbn [Execute snd app].
    constructor; [|exact IH2].
    exists f. split; [exact Hf|]. split; [reflexivity|].
    unfold bg_goroutine. destruct Hsafe as [-> | ->]; [destruct (f ev)|]; discriminate.
Qed.

(** Without a recovery callback, a panic of the function of an [AddBg]
    handler is not recovered in its goroutine. *)
Lemma bg_goroutine_unrecovered (client : Client) f ev :
  RecoverFunc (config client) = false -> f ev = Panics ->
  bg_goroutine client f ev = TaskCrashed.
Proof. unfold bg_goroutine. now intros -> ->. Qed.

(** X7.  Handlers added with [AddBg] do not hold up [exec], and with a
    recovery callback they cannot end the process: when the wait group
    is idle, every handler on the stack is an [AddBg] closure, and a
    recovery callback is configured or the callers' functions do not
    panic on the event, [exec] returns having started exactly one
    goroutine per handler, in stack order, and none of these goroutines
    ends the process (a panic is recovered inside its goroutine). *)
Theorem exec_background_returns command client ev c :
  wg c = 0%nat ->
  Forall (fun e => exists f, e.2 = BgHandler f
                   /\ (RecoverFunc (config client) = true \/ f ev = Returns))
         (exec_stack c command) ->
  exists spawned,
    exec command client ev c = ExecReturned spawned
    /\ Forall2 (fun e t => exists f, e.2 = BgHandler f /\ t = BgTask f ev
                            /\ bg_goroutine client f ev <> TaskCrashed)
         (exec_stack c command) spawned.
Proof.
  intros Hwg Hbg. destruct (spawned_bg client _ ev Hbg) as [Hret Hsp].
  eexists. split.
  - apply exec_returns; assumption.
  - exact Hsp.
Qed.

Lemma exec_background_returns_witness :
  let g : rng := fun _ => 0 in
  let c := (@AddBg ascii_externals "privmsg" (fun _ => Panics) newCaller g).1.2 in
  let client := mkClient (mkConfig "irc.example.org" "" "bot" "bot" "" false 0 true)
                         c None [] [] in
  let ev := mkEvent "PRIVMSG" ["#chan"%string] "hello" false in
  exists spawned,
    exec "PRIVMSG" client ev c = ExecReturned spawned
    /\ Forall2 (fun e t => exists f, e.2 = BgHandler f /\ t = BgTask f ev
                            /\ bg_goroutine client f ev <> TaskCrashed)
         (exec_stack c "PRIVMSG") spawned.
Proof.
  cbv zeta. apply exec_background_returns.
  - reflexivity.
  - vm_compute. constructor; [|constructor].
    eexists. split; [reflexivity|]. left. reflexivity.
Defined.

(* --------------------------------------------------------------------- *)
(** ** More on the rate limiter                                           *)
(* --------------------------------------------------------------------- *)

(** [rate] in terms of the cost, debt and wait formulas. *)
Lemma rate_unfold c n now :
  rate c n now
  = (RateSpec.wait (writeDelay c) n now (lastWrite c),
     set_writeDelay (RateSpec.debt (writeDelay c) n now (lastWrite c)) c).
Proof.
  unfold rate, RateSpec.wait, RateSpec.debt, RateSpec.cost. cbv zeta.
  set (k := Dur.add Dur.Second _).
  assert (Hd : Dur.add (writeDelay c) (Dur.sub k (Dur.time_sub now (lastWrite c)))
               = Dur.sub (Dur.add (writeDelay c) k) (Dur.time_sub now (lastWrite c))).
  { unfold Dur.add, Dur.sub. rewrite DurFacts.wrap_add_r, DurFacts.wrap_sub_l.
    f_equal. lia. }
  rewrite Hd. set (d := Dur.sub _ _).
  assert (Hm : (if d <? 0 then 0 else d) = Z.max 0 d).
  { destruct (d <? 0) eqn:E; [apply Z.ltb_lt in E | apply Z.ltb_ge in E]; lia. }
  rewrite Hm. cbn [writeDelay set_writeDelay].
  destruct (8 * Dur.Second <? Z.max 0 d); reflexivity.
Qed.

Lemma cost_linear n :
  0 <= n <= 9223372036 -> RateSpec.cost n = 1000000000 + n * 10000000.
Proof.
  intros Hn. rewrite cost_exact by assumption. f_equal.
  replace (n * 1000000000) with (n * 10000000 * 100) by lia.
  apply Z.div_mul. lia.
Qed.

(** X8.  Whatever the inputs (also when the arithmetic overflows), [rate]
    changes no field but the debt, leaves the debt within
    [0 .. 2^63-1], and returns either zero or the cost of the message;
    it returns the cost only when the new debt exceeds eight seconds.
    For a message length that fits, a wait that is not zero is at least
    one second. *)
Theorem rate_frame (c : ircConn) (n now : Z) :
  let r := rate c n now in
  lastWrite r.2 = lastWrite c /\ connected r.2 = connected c
  /\ lastPing r.2 = lastPing c /\ lastPong r.2 = lastPong c
  /\ 0 <= writeDelay r.2 <= Dur.max_int64
  /\ (r.1 = 0 \/ (r.1 = RateSpec.cost n /\ 8 * Dur.Second < writeDelay r.2))
  /\ (0 <= n <= 9223372036 -> r.1 = 0 \/ Dur.Second <= r.1).
Proof.
  cbv zeta. rewrite rate_unfold. cbn [fst snd lastWrite connected lastPing lastPong
                                      writeDelay set_writeDelay].
  repeat (split; [reflexivity|]).
  assert (Hrange : 0 <= RateSpec.debt (writeDelay c) n now (lastWrite c) <= Dur.max_int64).
  { unfold RateSpec.debt.
    pose proof (DurFacts.wrap_in_range
                  (Dur.add (writeDelay c) (RateSpec.cost n)
                   - Dur.time_sub now (lastWrite c))) as Hr.
    fold (Dur.sub (Dur.add (writeDelay c) (RateSpec.cost n))
                  (Dur.time_sub now (lastWrite c))) in Hr.
    unfold Dur.in_range, Dur.max_int64, Dur.min_int64 in *. lia. }
  split; [exact Hrange|].
  unfold RateSpec.wait.
  destruct (8 * Dur.Second <? RateSpec.debt _ _ _ _) eqn:E.
  - apply Z.ltb_lt in E. split; [right; auto|].
    intros Hn. right. rewrite cost_linear by assumption. unfold Dur.Second. lia.
  - split; left; reflexivity.
Qed.

(** X9.  Idle time repays the debt: when at least [debt + cost] has
    passed since the last write, [rate] clears the debt and asks for no
    wait.  In particular a connection on which nothing was written yet
    (its [lastWrite] lies further back than a [Duration] can express)
    never makes a caller wait. *)
Theorem rate_idle_forgives (c : ircConn) (n now : Z) :
  0 <= n <= 9223372036 ->
  0 <= writeDelay c ->
  writeDelay c + RateSpec.cost n <= Dur.max_int64 ->
  lastWrite c + (writeDelay c + RateSpec.cost n) <= now ->
  rate c n now = (0, set_writeDelay 0 c).
Proof.
  intros Hn Hwd Hfit Hidle. rewrite rate_unfold.
  pose proof (cost_linear n Hn) as Hc.
  assert (Hd : RateSpec.debt (writeDelay c) n now (lastWrite c) = 0).
  { rewrite debt_exact; lia. }
  unfold RateSpec.wait. rewrite Hd. reflexivity.
Qed.

(** A 300-byte message on a connection whose last write is the zero
    time, [now] being some sixty-three billion seconds later. *)
Lemma rate_idle_forgives_witness :
  rate (mkConn 0 0 true 0 0) 300 63000000000000000000
  = (0, set_writeDelay 0 (mkConn 0 0 true 0 0)).
Proof. apply rate_idle_forgives; vm_compute; intuition congruence. Defined.

Lemma conn_run_cons k op rest :
  conn_run k (op :: rest)
  = (match op with
     | OpRate _ _ => (conn_step k op).1 :: (conn_run (conn_step k op).2 rest).1
     | OpWrite _ => (conn_run (conn_step k op).2 rest).1
     end,
     (conn_run (conn_step k op).2 rest).2).
Proof.
  cbn [conn_run]. destruct (conn_step k op) as [d k'].
  cbn [fst snd]. now destruct (conn_run k' rest).
Qed.

Lemma rate_calls_cons op rest :
  rate_calls (op :: rest)
  = (match op with OpRate _ _ => 1 | OpWrite _ => 0 end) + rate_calls rest.
Proof. unfold rate_calls. destruct op; cbn [List.filter length]; lia. Qed.

Lemma rate_calls_nonneg ops : 0 <= rate_calls ops.
Proof. unfold rate_calls. lia. Qed.

(** X10.  The burst allowance.  Starting from a debt [d], any sequence of
    [rate] calls for messages of at most [n] bytes, interleaved in any
    way with writes of the send loop, makes no caller wait as long as
    [d] plus the number of calls times the cost of an [n]-byte message
    stays within eight seconds; the debt at the end is at most that
    sum. *)
Theorem rate_burst (n : Z) (ops : list conn_op) (k : ircConn) :
  0 <= n <= 9223372036 ->
  0 <= writeDelay k ->
  ops_ok n (lastWrite k) ops ->
  writeDelay k + rate_calls ops * RateSpec.cost n <= 8 * Dur.Second ->
  Forall (fun d => d = 0) (conn_run k ops).1
  /\ 0 <= writeDelay (conn_run k ops).2
     <= writeDelay k + rate_calls ops * RateSpec.cost n.
Proof.
  intros Hn. pose proof (cost_linear n Hn) as Hcn.
  revert k. induction ops as [|op ops IH]; intros k Hwd Hok Hbudget.
  - cbn [conn_run fst snd]. split; [constructor|].
    unfold rate_calls. cbn. lia.
  - rewrite conn_run_cons. rewrite rate_calls_cons in *.
    pose proof (rate_calls_nonneg ops) as Hcalls.
    destruct op as [chars now|now]; cbn [ops_ok] in Hok; cbn [fst snd].
    + destruct Hok as (Hchars & Hclock & Hok).
      assert (Hcc : RateSpec.cost chars = 1000000000 + chars * 10000000)
        by (apply cost_linear; lia).
      cbn [conn_step]. rewrite rate_unfold. cbn [fst snd].
      assert (Hd : RateSpec.debt (writeDelay k) chars now (lastWrite k)
                   = Z.max 0 (writeDelay k + RateSpec.cost chars - (now - lastWrite k))).
      { apply debt_exact; try lia.
        unfold Dur.max_int64, Dur.Second in *. nia. }
      assert (Hle : RateSpec.debt (writeDelay k) chars now (lastWrite k)
                    <= writeDelay k + RateSpec.cost n) by (rewrite Hd; nia).
      assert (Hge : 0 <= RateSpec.debt (writeDelay k) chars now (lastWrite k))
        by (rewrite Hd; lia).
      destruct (IH (set_writeDelay (RateSpec.debt (writeDelay k) chars now (lastWrite k)) k))
        as [Hw Hf].
      * cbn [writeDelay set_writeDelay]. exact Hge.
      * cbn [lastWrite set_writeDelay]. exact Hok.
      * cbn [writeDelay set_writeDelay]. nia.
      * cbn [writeDelay set_writeDelay] in Hf. split; [|nia].
        constructor; [|exact Hw].
        unfold RateSpec.wait.
        destruct (8 * Dur.Second <? _) eqn:E; [|reflexivity].
        apply Z.ltb_lt in E. nia.
    + cbn [conn_step snd].
      set (k' := mkConn now (writeDelay k) (connected k) (lastPing k) (lastPong k)).
      assert (H1 : 0 <= writeDelay k') by exact Hwd.
      assert (H2 : ops_ok n (lastWrite k') ops) by exact Hok.
      assert (H3 : writeDelay k' + rate_calls ops * RateSpec.cost n <= 8 * Dur.Second)
        by (cbn [writeDelay k']; lia).
      destruct (IH k' H1 H2 H3) as [Hw Hf].
      split; [exact Hw|]. cbn [writeDelay k'] in Hf. lia.
Qed.

(** Eight empty messages in a row, a write of the send loop in between:
    nobody waits.  The ninth would exceed the allowance. *)
Lemma rate_burst_witness :
  let k := mkConn 1000 0 true 0 0 in
  let ops := [OpRate 0 1000; OpRate 0 1000; OpRate 0 1000; OpRate 0 1000;
              OpWrite 1000;
              OpRate 0 1000; OpRate 0 1000; OpRate 0 1000; OpRate 0 1000] in
  Forall (fun d => d = 0) (conn_run k ops).1
  /\ 0 <= writeDelay (conn_run k ops).2 <= writeDelay k + rate_calls ops * RateSpec.cost 0.
Proof.
  cbv zeta. apply rate_burst.
  - lia.
  - cbn. lia.
  - cbn. lia.
  - vm_compute. discriminate.
Defined.

Example rate_ninth_message_waits :
  (conn_run (mkConn 1000 0 true 0 0) (repeat (OpRate 0 1000) 9)).1
  = [0; 0; 0; 0; 0; 0; 0; 0; 1000000000].
Proof. reflexivity. Qed.

(* --------------------------------------------------------------------- *)
(** ** [Send] and the send loop                                           *)
(* --------------------------------------------------------------------- *)

(** X11.  [Send] panics exactly when flood protection is on and there is
    no connection.  Otherwise it appends the event to the outbound queue
    and touches neither the configuration, the registry nor the inbound
    queue; with flood protection off ([AllowFlood]) the caller never
    waits and the connection (its debt included) is left as it was. *)
Theorem Send_spec (EventLen : Event -> Z) (ev : Event) (now : Z) (c : Client) :
  (Send EventLen ev now c = None
   <-> AllowFlood (config c) = false /\ conn c = None)
  /\ (forall d c', Send EventLen ev now c = Some (d, c') ->
        tx c' = tx c ++ [ev]
        /\ config c' = config c /\ Handlers c' = Handlers c /\ rx c' = rx c
        /\ (AllowFlood (config c) = true -> d = 0 /\ conn c' = conn c)
        /\ (AllowFlood (config c) = false ->
            exists k, conn c = Some k
                      /\ d = (rate k (EventLen ev) now).1
                      /\ conn c' = Some (rate k (EventLen ev) now).2)).
Proof.
  unfold Send. destruct (AllowFlood (config c)) eqn:Ha; cbn [negb].
  - split; [split; [discriminate | intros [? _]; discriminate]|].
    intros d c' [= <- <-]. cbn [write tx config Handlers rx conn].
    do 4 (split; [reflexivity|]). split; [auto | discriminate].
  - destruct (conn c) as [k|] eqn:Hk.
    + destruct (rate k (EventLen ev) now) as [d0 k'] eqn:Hr.
      split; [split; [discriminate | intros [_ ?]; discriminate]|].
      intros d c' [= <- <-].
      cbn [write set_conn tx config Handlers rx conn].
      do 4 (split; [reflexivity|]). split; [discriminate|].
      intros _. exists k. rewrite Hr. auto.
    + split; [split; auto|]. discriminate.
Qed.

Lemma last_nonempty_default (a : Z) (l : list Z) (d1 d2 d' : Z) :
  List.last (a :: l) d1 = List.last (d' :: a :: l) d2.
Proof.
  change (List.last (d' :: a :: l) d2) with (List.last (a :: l) d2).
  revert a. induction l as [|b l IH]; intros a; [reflexivity|].
  change (List.last (b :: l) d1 = List.last (b :: l) d2). apply IH.
Qed.

Lemma sendLoop_frame script k errs :
  let r := sendLoop script k errs in
  writeDelay r.1.2 = writeDelay k /\ connected r.1.2 = connected k
  /\ lastPing r.1.2 = lastPing k /\ lastPong r.1.2 = lastPong k.
Proof.
  cbv zeta. revert k. induction script as [|[|ev now [e|]] rest IH]; intros k;
    cbn [sendLoop fst snd]; try (repeat split; reflexivity).
  destruct (IH (mkConn now (writeDelay k) (connected k) (lastPing k) (lastPong k)))
    as (-> & -> & -> & ->).
  repeat split.
Qed.

(** X12.  The send loop reports at most one error, and returns as soon
    as it has reported one; it changes no field of the connection but
    [lastWrite].  As long as every write succeeds and [done] is not
    signalled it keeps running, reports nothing, and [lastWrite] is the
    time of the last event taken from the queue. *)
Theorem sendLoop_spec (script : list send_obs) (k : ircConn) (errs : list error) :
  let r := sendLoop script k errs in
  (exists es, r.2 = errs ++ es /\ (length es <= 1)%nat
              /\ (es <> [] -> r.1.1 = LoopReturned))
  /\ (writeDelay r.1.2 = writeDelay k /\ connected r.1.2 = connected k
      /\ lastPing r.1.2 = lastPing k /\ lastPong r.1.2 = lastPong k)
  /\ (forall sends : list (Event * Z),
        script = map (fun p => SendEvent p.1 p.2 None) sends ->
        r.1.1 = LoopRunning /\ r.2 = errs
        /\ lastWrite r.1.2 = List.last (map snd sends) (lastWrite k)).
Proof.
  cbv zeta. split; [|split; [apply sendLoop_frame|]].
  - revert k. induction script as [|[|ev now [e|]] rest IH]; intros k;
      cbn [sendLoop fst snd].
    + exists []. rewrite app_nil_r.
      split; [reflexivity|]. split; [cbn; lia | congruence].
    + exists []. rewrite app_nil_r.
      split; [reflexivity|]. split; [cbn; lia | congruence].
    + exists [e]. split; [reflexivity|]. split; [cbn; lia | reflexivity].
    + apply IH.
  - intros sends ->. revert k. induction sends as [|[ev now] sends IH]; intros k.
    + repeat split.
    + cbn [map sendLoop fst snd].
      destruct (IH (mkConn now (writeDelay k) (connected k) (lastPing k) (lastPong k)))
        as (H1 & H2 & H3).
      split; [exact H1|]. split; [exact H2|].
      rewrite H3. cbn [lastWrite map snd].
      destruct (map snd sends) as [|t ts]; [reflexivity|].
      apply last_nonempty_default.
Qed.

(* --------------------------------------------------------------------- *)
(** ** The read loop and [done]                                           *)
(* --------------------------------------------------------------------- *)


(* --------------------------------------------------------------------- *)
(** ** The keepalive loop and its lock                                    *)
(* --------------------------------------------------------------------- *)

(** X14.  Whenever the keepalive loop returns, it has released every
    read lock it took: the lock is in the state in which the loop found
    it.  It has reported at most one error, the timeout, and has not
    touched the connection. *)
Theorem pingLoop_run_returns_balanced (delay : Z) (script : list ping_obs)
    (st : pingState) :
  p_deferred st = 0%nat ->
  (pingLoop_run delay script st).1 = PingReturned ->
  let st' := (pingLoop_run delay script st).2 in
  p_mu st' = p_mu st /\ p_deferred st' = 0%nat
  /\ p_conn st' = p_conn st /\ p_pings st' = p_pings st
  /\ (p_errs st' = p_errs st \/ p_errs st' = p_errs st ++ [ErrTimedOut]).
Proof.
  intros Hdef. cbv zeta.
  destruct script as [|[|t1 t2 t3] rest]; cbn [pingLoop_run fst snd].
  - discriminate.
  - intros _. unfold run_deferred. rewrite Hdef. cbn. auto 6.
  - pose proof (pingLoop_tick_outcomes delay t1 t2 t3 st) as Ho.
    destruct (pingLoop_tick delay t1 t2 t3 st) as [st'|st'|st']; cbn [fst snd];
      [|contradiction|discriminate].
    destruct Ho as (m & Hm & ->).
    intros _. cbn [p_mu p_deferred p_conn p_pings p_errs].
    rewrite Hdef. cbn [Nat.iter].
    unfold RLock in Hm. destruct (p_mu st) as [rd wr]. cbn in Hm.
    destruct wr; [discriminate|]. injection Hm as <-.
    cbn. auto 6.
Qed.

Lemma pingLoop_run_returns_balanced_witness :
  let st := mkPing (mkConn 0 0 true 0 0) (mkMutex 2 false) 0 [] [] in
  let st' := (pingLoop_run 20000000000 [PingTick 90000000000 90000000000 90000000000] st).2 in
  p_mu st' = p_mu st /\ p_deferred st' = 0%nat
  /\ p_conn st' = p_conn st /\ p_pings st' = p_pings st
  /\ (p_errs st' = p_errs st \/ p_errs st' = p_errs st ++ [ErrTimedOut]).
Proof.
  cbv zeta. apply pingLoop_run_returns_balanced; reflexivity.
Defined.

(* --------------------------------------------------------------------- *)
(** ** Framing of inbound lines                                           *)
(* --------------------------------------------------------------------- *)

Lemma IndexByte_cons_miss a s c :
  IndexByte (String a s) c < 0 -> Ascii.eqb a c = false /\ IndexByte s c < 0.
Proof.
  cbn [IndexByte]. destruct (Ascii.eqb a c); [lia|].
  destruct (IndexByte s c <? 0) eqn:E; [apply Z.ltb_lt in E | apply Z.ltb_ge in E];
    intros; split; auto; lia.
Qed.

Lemma split_at_miss c s : IndexByte s c < 0 -> split_at c s = None.
Proof.
  induction s as [|a s IH]; [reflexivity|].
  intros H. destruct (IndexByte_cons_miss _ _ _ H) as [Ha Hs].
  cbn [split_at]. rewrite Ha, (IH Hs). reflexivity.
Qed.

Lemma split_at_line c l rest :
  IndexByte l c < 0 ->
  split_at c (l +:+ String c rest) = Some (l +:+ String c EmptyString, rest).
Proof.
  induction l as [|a l IH].
  - intros _. change (split_at c (String c rest) = Some (String c EmptyString, rest)).
    cbn [split_at]. now rewrite Ascii.eqb_refl.
  - intros H. destruct (IndexByte_cons_miss _ _ _ H) as [Ha Hs].
    rewrite !append_cons. cbn [split_at]. rewrite Ha, (IH Hs). reflexivity.
Qed.

Lemma split_at_hit c s :
  0 <= IndexByte s c ->
  exists l rest, IndexByte l c < 0 /\ s = l +:+ String c rest
                 /\ split_at c s = Some (l +:+ String c EmptyString, rest).
Proof.
  intros H.
  exists (slice_to s (Z.to_nat (IndexByte s c))),
         (slice_from s (S (Z.to_nat (IndexByte s c)))).
  assert (Hl : IndexByte (slice_to s (Z.to_nat (IndexByte s c))) c < 0)
    by now apply IndexByte_slice_to_miss.
  assert (Hs : s = slice_to s (Z.to_nat (IndexByte s c))
                   +:+ String c (slice_from s (S (Z.to_nat (IndexByte s c))))).
  { pose proof (IndexByte_lt_length s c) as Hlt.
    pose proof (slice_rejoin s (Z.to_nat (IndexByte s c)) ltac:(lia)) as Hr.
    rewrite (IndexByte_hit_byte s c H) in Hr. symmetry. exact Hr. }
  split; [exact Hl|]. split; [exact Hs|].
  rewrite Hs at 1. now apply split_at_line.
Qed.

Section DecodeFacts.
Variable ParseEvent : string -> option Event.
Variable nil_event_text : string.

(** What [decode] makes of one complete line. *)
Let parsed (line : string) : option Event * option error :=
  match ParseEvent line with
  | Some ev => (Some ev, None)
  | None => (None, Some (ErrOther ("unable to parse incoming event: " +:+ nil_event_text)))
  end.

Lemma conn_decode_line l rest fin :
  IndexByte l delim < 0 ->
  conn_decode ParseEvent nil_event_text (mkReader (l +:+ String delim rest) fin)
  = (parsed (l +:+ String delim EmptyString), mkReader rest fin).
Proof.
  intros H. unfold conn_decode, ReadString, parsed. cbn [pending final].
  rewrite (split_at_line _ _ _ H).
  now destruct (ParseEvent (l +:+ String delim EmptyString)).
Qed.

Lemma conn_decode_partial s fin :
  IndexByte s delim < 0 ->
  conn_decode ParseEvent nil_event_text (mkReader s fin)
  = ((None, Some fin), mkReader EmptyString fin).
Proof.
  intros H. unfold conn_decode, ReadString. cbn [pending final].
  now rewrite (split_at_miss _ _ H).
Qed.

(** X15.  One call of [decode].  It returns an event or an error, never
    both and never neither.  When the pending bytes hold a line feed,
    it consumes exactly the bytes up to and including the first one,
    hands them (line feed included) to [ParseEvent], and keeps the rest
    for the next call.  When they hold none, it returns the read error
    and the unfinished line is lost. *)
Theorem conn_decode_step (r : reader) :
  let res := (conn_decode ParseEvent nil_event_text r).1 in
  let r' := (conn_decode ParseEvent nil_event_text r).2 in
  (res.1 = None <-> res.2 <> None)
  /\ final r' = final r
  /\ (0 <= IndexByte (pending r) delim ->
      exists l, IndexByte l delim < 0
                /\ pending r = (l +:+ String delim EmptyString) +:+ pending r'
                /\ res = parsed (l +:+ String delim EmptyString))
  /\ (IndexByte (pending r) delim < 0 ->
      res = (None, Some (final r)) /\ pending r' = EmptyString).
Proof.
  cbv zeta. destruct r as [s fin]. cbn [pending final].
  destruct (Z_lt_ge_dec (IndexByte s delim) 0) as [Hmiss|Hhit].
  - rewrite (conn_decode_partial s fin Hmiss). cbn [fst snd pending final].
    split; [split; [discriminate | reflexivity]|].
    split; [reflexivity|]. split; [lia | auto].
  - destruct (split_at_hit delim s ltac:(lia)) as (l & rest & Hl & -> & _).
    rewrite (conn_decode_line l rest fin Hl). cbn [fst snd pending final].
    split.
    { unfold parsed. destruct (ParseEvent _); cbn [fst snd];
        split; congruence. }
    split; [reflexivity|]. split.
    + intros _. exists l. split; [exact Hl|]. split; [|reflexivity].
      clear. induction l as [|a l IH]; [reflexivity|].
      rewrite !append_cons. now f_equal.
    + intros Hneg. exfalso.
      rewrite (IndexByte_app_miss l delim rest Hl) in Hneg. lia.
Qed.

(** X16.  Successive calls of [decode] split the byte stream at the
    line feeds: on [n] complete lines followed by an unfinished one,
    [n] calls yield what [ParseEvent] makes of each line, in order,
    and leave the unfinished line pending; the next call then returns
    the read error (and drops the unfinished line). *)
Theorem conn_decode_frames (lines : list string) (tail : string) (fin : error) :
  Forall (fun l => IndexByte l delim < 0) lines ->
  IndexByte tail delim < 0 ->
  decode_many ParseEvent nil_event_text (length lines)
              (mkReader (join_lines lines tail) fin)
  = (map (fun l => parsed (l +:+ String delim EmptyString)) lines,
     mkReader tail fin)
  /\ conn_decode ParseEvent nil_event_text (mkReader tail fin)
     = ((None, Some fin), mkReader EmptyString fin).
Proof.
  intros Hlines Htail. split; [|now apply conn_decode_partial].
  induction Hlines as [|l lines Hl _ IH]; [reflexivity|].
  cbn [length decode_many join_lines fold_right map].
  fold (join_lines lines tail).
  rewrite (conn_decode_line l _ fin Hl), IH. reflexivity.
Qed.

End DecodeFacts.

(** Two lines and the beginning of a third, with a parser that accepts
    every line. *)
Lemma conn_decode_frames_witness :
  let parse : string -> option Event := fun s => Some (mkEvent s [] "" false) in
  let crlf := String "013" (String "010" EmptyString) in
  decode_many parse "<nil>" 2
    (mkReader ("PING :a" +:+ crlf +:+ "PING :b" +:+ crlf +:+ "PIN") (ErrOther "EOF"))
  = ([(Some (mkEvent ("PING :a" +:+ crlf) [] "" false), None);
      (Some (mkEvent ("PING :b" +:+ crlf) [] "" false), None)],
     mkReader "PIN" (ErrOther "EOF"))
  /\ conn_decode parse "<nil>" (mkReader "PIN" (ErrOther "EOF"))
     = ((None, Some (ErrOther "EOF")), mkReader "" (ErrOther "EOF")).
Proof.
  cbv zeta.
  apply (conn_decode_frames (fun s => Some (mkEvent s [] "" false)) "<nil>"
           [String.append "PING :a" (String "013" EmptyString);
            String.append "PING :b" (String "013" EmptyString)]
           "PIN" (ErrOther "EOF")).
  - repeat constructor.
  - vm_compute. reflexivity.
Defined.

(* --------------------------------------------------------------------- *)
(** ** The registration handshake                                         *)
(* --------------------------------------------------------------------- *)

Lemma write_all_frame (es : list Event) (c : Client) :
  Handlers (fold_left (fun c e => write e c) es c) = Handlers c
  /\ conn (fold_left (fun c e => write e c) es c) = conn c
  /\ rx (fold_left (fun c e => write e c) es c) = rx c.
Proof.
  revert c. induction es as [|e es IH]; intros c; cbn [fold_left]; [auto|].
  destruct (IH (write e c)) as (-> & -> & ->). auto.
Qed.

Section HandshakeFacts.
Context {X : Externals}.

Lemma handshake_frame (c : Client) :
  Handlers (handshake c) = Handlers c
  /\ conn (handshake c) = conn c
  /\ rx (handshake c) = rx c.
Proof.
  unfold handshake.
  match goal with
  | |- context [fold_left _ ?es ?c0] =>
      destruct (write_all_frame es c0) as (-> & -> & ->)
  end.
  destruct (negb (String.eqb (Password (config c)) ""));
    cbn [write Handlers conn rx config];
    destruct (String.eqb (Name (config _)) "");
    cbn [write set_config Handlers conn rx]; auto.
Qed.

(** X17.  The handshake only appends to the outbound queue: what was
    queued before stays in front, and then come PASS (exactly when a
    password is set, carrying it), NICK, USER and the capability
    request, in this order.  The registry, the connection and the
    inbound queue are not touched, and the USER message carries a
    non-empty real name whenever the user name is not empty. *)
Theorem handshake_queue (c : Client) :
  exists name,
    tx (handshake c)
    = tx c
      ++ (if String.eqb (Password (config c)) "" then []
          else [mkEvent PASS [Password (config c)] "" false])
      ++ [mkEvent NICK [Nick (config c)] "" false;
          mkEvent USER [User (config c); "+iw"; "*"]%string name false]
      ++ listCAP (config (handshake c))
    /\ (User (config c) <> EmptyString -> name <> EmptyString)
    /\ Name (config (handshake c)) = name
    /\ Handlers (handshake c) = Handlers c
    /\ conn (handshake c) = conn c
    /\ rx (handshake c) = rx c.
Proof.
  destruct (handshake_spec c) as [Hc Ht].
  exists (if String.eqb (Name (config c)) "" then User (config c) else Name (config c)).
  split; [|split; [|split; [|]]].
  - rewrite Ht, Hc. now destruct (String.eqb (Password (config c)) "").
  - intros Hu. destruct (String.eqb (Name (config c)) "") eqn:E; [exact Hu|].
    now apply String.eqb_neq in E.
  - now rewrite Hc.
  - apply handshake_frame.
Qed.

End HandshakeFacts.

(* --------------------------------------------------------------------- *)
(** ** Dialing                                                            *)
(* --------------------------------------------------------------------- *)

Lemma newConn_finish_ok conf opts now sock :
  newConn_finish conf opts now sock
  = inr (if SSL opts
         then TLSSock sock (match TLSConfig opts with
                            | None => mkTLS (Server conf) false
                            | Some cf => cf
                            end)
         else sock,
         now, mkConn zeroTime 0 true zeroTime zeroTime).
Proof.
  unfold newConn_finish, tlsHandshake. destruct (SSL opts); reflexivity.
Qed.

(** X18.  The calls [newConn] makes.  An invalid configuration fails
    before any call.  Otherwise the bind address is resolved first,
    exactly when one is configured; with a proxy configured the server
    is never dialled directly, and without one no proxy call is made; at
    most one dial is attempted, it is the last call, and [newConn]
    succeeds only if it was made. *)
Theorem newConn_calls (N : Network) (conf : Config) (opts : DialOptions)
    (addr : string) (now : Z) :
  let res := (newConn N conf opts addr now).1 in
  let calls := (newConn N conf opts addr now).2 in
  (forall e, net_isValid N conf opts = Some e ->
     res = inl (ErrOther ("invalid configuration: " +:+ error_text e)) /\ calls = [])
  /\ (net_isValid N conf opts = None ->
      (Bind opts <> EmptyString ->
         exists more, calls = CallResolve (Bind opts +:+ ":0") :: more
                      /\ Forall (fun k => match k with
                                          | CallResolve _ => False
                                          | _ => True
                                          end) more)
      /\ (Bind opts = EmptyString ->
          Forall (fun k => match k with CallResolve _ => False | _ => True end) calls))
  /\ (Proxy opts <> EmptyString -> Forall (fun k => is_direct_dial k = false) calls)
  /\ (Proxy opts = EmptyString -> Forall (fun k => is_proxy_call k = false) calls)
  /\ (length (List.filter is_dial calls) <= 1)%nat
  /\ (forall pre k post, calls = pre ++ k :: post -> is_dial k = true -> post = [])
  /\ (forall v, res = inr v ->
        exists pre k, calls = pre ++ [k] /\ is_dial k = true).
Proof.
  cbv zeta. unfold newConn.
  destruct (net_isValid N conf opts) as [e0|] eqn:Hv.
  { cbn [fst snd].
    split; [intros e [= <-]; auto|]. split; [discriminate|].
    split; [constructor|]. split; [constructor|]. split; [cbn; lia|].
    split; [intros [|? ?] ? ? ?; discriminate | discriminate]. }
  split; [discriminate|].
  destruct (String.eqb (Bind opts) "") eqn:Hb; cbn [negb].
  - (* no bind address *)
    apply String.eqb_eq in Hb.
    destruct (String.eqb (Proxy opts) "") eqn:Hp; cbn [negb app].
    + apply String.eqb_eq in Hp.
      destruct (net_dial N None addr) as [err|id]; cbn [fst snd];
        rewrite ?newConn_finish_ok;
        (split; [intros _; split; [congruence | intros _; repeat constructor]|]);
        (split; [congruence|]);
        (split; [intros _; repeat constructor|]);
        (split; [cbn; lia|]);
        (split; [intros [|? [|? ?]] ? ? [=]; subst; auto|]);
        [discriminate | intros v _; exists [], (CallDial None addr); auto].
    + apply String.eqb_neq in Hp.
      destruct (net_parse N (Proxy opts)) as [err|uri]; cbn [fst snd];
        [|destruct (net_fromURL N uri None) as [err|]; cbn [fst snd];
          [|destruct (net_proxyDial N uri addr) as [err|id]; cbn [fst snd];
            rewrite ?newConn_finish_ok]];
        (split; [intros _; split; [congruence | intros _; repeat constructor]|]);
        (split; [intros _; repeat constructor|]);
        (split; [congruence|]);
        (split; [cbn; lia|]);
        (split; [intros [|? [|? [|? [|? ?]]]] ? ? [=]; subst; try discriminate; auto|]);
        try discriminate.
      intros v _. exists [CallParseURL (Proxy opts); CallFromURL uri None],
                         (CallProxyDial uri addr). auto.
  - (* a bind address is configured *)
    apply String.eqb_neq in Hb.
    destruct (net_resolve N (Bind opts +:+ ":0")) as [err|local]; cbn [fst snd].
    { split; [split; [intros _; eexists; split; [reflexivity | constructor]
                     | congruence]|].
      split; [intros _; repeat constructor|].
      split; [intros _; repeat constructor|]. split; [cbn; lia|].
      split; [intros [|? [|? ?]] ? ? [=]; subst; discriminate | discriminate]. }
    destruct (String.eqb (Proxy opts) "") eqn:Hp; cbn [negb app].
    + apply String.eqb_eq in Hp.
      destruct (net_dial N (Some local) addr) as [err|id]; cbn [fst snd];
        rewrite ?newConn_finish_ok;
        (split; [intros _; split;
                   [intros _; eexists; split; [reflexivity | repeat constructor; auto]
                   | congruence]|]);
        (split; [congruence|]);
        (split; [intros _; repeat constructor|]);
        (split; [cbn; lia|]);
        (split; [intros [|? [|? [|? ?]]] ? ? [=]; subst; try discriminate; auto|]);
        [discriminate
        | intros v _; exists [CallResolve (Bind opts +:+ ":0")], (CallDial (Some local) addr);
          auto].
    + apply String.eqb_neq in Hp.
      destruct (net_parse N (Proxy opts)) as [err|uri]; cbn [fst snd];
        [|destruct (net_fromURL N uri (Some local)) as [err|]; cbn [fst snd];
          [|destruct (net_proxyDial N uri addr) as [err|id]; cbn [fst snd];
            rewrite ?newConn_finish_ok]];
        (split; [intros _; split;
                   [intros _; eexists; split; [reflexivity | repeat constructor; auto]
                   | congruence]|]);
        (split; [intros _; repeat constructor|]);
        (split; [congruence|]);
        (split; [cbn; lia|]);
        (split; [intros [|? [|? [|? [|? [|? ?]]]]] ? ? [=]; subst; try discriminate; auto|]);
        try discriminate.
      intros v _. exists [CallResolve (Bind opts +:+ ":0");
                          CallParseURL (Proxy opts); CallFromURL uri (Some local)],
                         (CallProxyDial uri addr). auto.
Qed.

(** X19.  What [newConn] returns on success, and what TLS changes.  The
    connection record is fresh: connected, no debt, the three timestamps
    at the zero time; [connTime] is the current time.  The socket is the
    dialled one, wrapped by TLS exactly when [SSL] is set, under the
    supplied TLS configuration or, when there is none, one that names the
    configured server and verifies its certificate.  Setting up TLS makes
    no outside call and never fails: with the same validation answer, the
    calls made and the error returned do not depend on [SSL] or
    [TLSConfig]. *)
Theorem newConn_result (N : Network) (conf : Config) (opts : DialOptions)
    (addr : string) (now : Z) :
  (forall v, (newConn N conf opts addr now).1 = inr v ->
     v.2 = mkConn zeroTime 0 true zeroTime zeroTime
     /\ v.1.2 = now
     /\ exists id,
          v.1.1 = if SSL opts
                  then TLSSock (PlainSock id)
                         (match TLSConfig opts with
                          | None => mkTLS (Server conf) false
                          | Some cf => cf
                          end)
                  else PlainSock id)
  /\ (forall ssl tlsconf,
        let opts' := mkDial (Bind opts) (Proxy opts) ssl tlsconf in
        net_isValid N conf opts' = net_isValid N conf opts ->
        (newConn N conf opts' addr now).2 = (newConn N conf opts addr now).2
        /\ (forall e, (newConn N conf opts' addr now).1 = inl e
                      <-> (newConn N conf opts addr now).1 = inl e)).
Proof.
  split.
  - intros v. unfold newConn.
    destruct (net_isValid N conf opts); [discriminate|].
    destruct (negb (String.eqb (Bind opts) "")).
    + destruct (net_resolve N (Bind opts +:+ ":0")) as [?|local]; [discriminate|].
      destruct (negb (String.eqb (Proxy opts) "")).
      * destruct (net_parse N (Proxy opts)) as [?|uri]; [discriminate|].
        destruct (net_fromURL N uri (Some local)); [discriminate|].
        destruct (net_proxyDial N uri addr) as [?|id]; [discriminate|].
        cbn [fst]. rewrite newConn_finish_ok. intros [= <-]. cbn [fst snd]. eauto.
      * destruct (net_dial N (Some local) addr) as [?|id]; [discriminate|].
        cbn [fst]. rewrite newConn_finish_ok. intros [= <-]. cbn [fst snd]. eauto.
    + destruct (negb (String.eqb (Proxy opts) "")).
      * destruct (net_parse N (Proxy opts)) as [?|uri]; [discriminate|].
        destruct (net_fromURL N uri None); [discriminate|].
        destruct (net_proxyDial N uri addr) as [?|id]; [discriminate|].
        cbn [fst]. rewrite newConn_finish_ok. intros [= <-]. cbn [fst snd]. eauto.
      * destruct (net_dial N None addr) as [?|id]; [discriminate|].
        cbn [fst]. rewrite newConn_finish_ok. intros [= <-]. cbn [fst snd]. eauto.
  - intros ssl tlsconf opts' Hvalid. unfold newConn. rewrite Hvalid.
    subst opts'. cbn [Bind Proxy].
    destruct (net_isValid N conf opts); [split; [reflexivity | tauto]|].
    destruct (negb (String.eqb (Bind opts) ""));
      [destruct (net_resolve N (Bind opts +:+ ":0")) as [?|local];
         [split; [reflexivity | tauto]|]|];
      (destruct (negb (String.eqb (Proxy opts) ""));
       [destruct (net_parse N (Proxy opts)) as [?|uri];
          [split; [reflexivity | tauto]|];
        destruct (net_fromURL N uri _); [split; [reflexivity | tauto]|];
        destruct (net_proxyDial N uri addr) as [?|id]; [split; [reflexivity | tauto]|]
       |destruct (net_dial N _ addr) as [?|id]; [split; [reflexivity | tauto]|]]);
      cbn [fst snd]; rewrite !newConn_finish_ok;
      (split; [reflexivity | intros e; split; discriminate]).
Qed.

(** A direct dial with TLS and no TLS configuration of the caller's. *)
Lemma newConn_result_witness :
  let N := mkNet (fun _ _ => None) (fun s => inr s) (fun s => inr s) (fun _ _ => None)
                 (fun _ _ => inr 7%nat) (fun _ _ => inr 7%nat) (fun s => s) in
  let conf := mkConfig "irc.example.org" "" "bot" "bot" "" false 0 false in
  let opts := mkDial "" "" true None in
  (newConn N conf opts "irc.example.org:6697" 1000).1
  = inr (TLSSock (PlainSock 7) (mkTLS "irc.example.org" false), 1000,
         mkConn zeroTime 0 true zeroTime zeroTime)
  /\ (newConn N conf opts "irc.example.org:6697" 1000).2
     = [CallDial None "irc.example.org:6697"].
Proof.
  cbv zeta. split; [|reflexivity].
  match goal with
  | |- (newConn ?N ?conf ?opts ?addr ?now).1 = inr ?v =>
      destruct (proj1 (newConn_result N conf opts addr now) v eq_refl)
        as (_ & _ & _)
  end.
  reflexivity.
Defined.

(* --------------------------------------------------------------------- *)
(** ** The dispatch stack under removal                                   *)
(* --------------------------------------------------------------------- *)

Lemma handlers_of_elem (m : handler_map) command uid h :
  (uid, h) ∈ handlers_of m command <-> lookup2 m command uid = Some h.
Proof.
  unfold handlers_of, lookup2. destruct (m !! command) as [inner|].
  - apply elem_of_map_to_list.
  - split; [intros H; inversion H | discriminate].
Qed.

(** X20.  [Remove] takes at most its own handler off the stacks that
    [exec] builds: every entry of a stack is still there afterwards,
    unless it is the external entry the token names, and no entry is
    ever added. *)
Theorem Remove_keeps_others (tok : string) (c : Caller) (command uid : string)
    (h : Handler) :
  let c' := (Remove tok c).2 in
  ((uid, h) ∈ exec_stack c' command -> (uid, h) ∈ exec_stack c command)
  /\ ((uid, h) ∈ exec_stack c command ->
      (command, uid) <> cuidToID tok ->
      (uid, h) ∈ exec_stack c' command)
  /\ ((uid, h) ∈ handlers_of (internal c) command ->
      (uid, h) ∈ exec_stack c' command).
Proof.
  cbv zeta. unfold Remove, exec_stack.
  destruct (remove_cases tok c)
    as [[-> _]|(inner & h0 & _ & _ & Hm & Hi & ->)]; cbn [fst snd internal external].
  { split; [auto|]. split; [auto|]. intros H. apply elem_of_app. auto. }
  destruct (cuidToID tok) as [cmd0 uid0] eqn:Hparse. cbn [fst snd] in *.
  rewrite !elem_of_app, !handlers_of_elem.
  split; [|split].
  - intros [H|H]; [auto|]. right.
    destruct (decide ((command, uid) = (cmd0, uid0))) as [[= -> ->]|Hne].
    + rewrite lookup2_delete_eq in H. discriminate.
    + now rewrite (lookup2_delete_ne _ _ _ _ _ _ Hm Hne) in H.
  - intros [H|H] Hne; [auto|]. right.
    now rewrite (lookup2_delete_ne _ _ _ _ _ _ Hm Hne).
  - auto.
Qed.

(** Two handlers for the same command: removing the first leaves the
    second on the stack. *)
Lemma Remove_keeps_others_witness :
  let g : rng := fun i => Z.of_nat i in
  let h1 := HandlerFunc (fun _ => Returns) in
  let h2 := HandlerFunc (fun _ => Panics) in
  let r1 := @AddHandler ascii_externals "privmsg" h1 newCaller g in
  let r2 := @AddHandler ascii_externals "privmsg" h2 r1.1.2 r1.2 in
  let uid2 := (cuidToID r2.1.1).2 in
  (uid2, h2) ∈ exec_stack (Remove r1.1.1 r2.1.2).2 "PRIVMSG".
Proof.
  cbv zeta.
  match goal with
  | |- (?uid, ?h) ∈ exec_stack (Remove ?tok ?c).2 ?cmd =>
      apply (proj1 (proj2 (Remove_keeps_others tok c cmd uid h)))
  end.
  - apply elem_of_app. right. apply handlers_of_elem. reflexivity.
  - vm_compute. discriminate.
Defined.

(* --------------------------------------------------------------------- *)
(** ** The shared wait group                                              *)
(* --------------------------------------------------------------------- *)

(** X21.  The wait group is shared by all calls of [exec] on a registry.
    Once its counter is above zero (a handler panicked and was
    recovered without reaching [c.wg.Done()]), no call of [exec] on
    that registry returns any more, whatever the command and also when
    no handler is registered for it. *)
Theorem exec_never_returns_after_hang (command : string) (client : Client)
    (ev : Event) (c : Caller) (spawned : list task) :
  (0 < wg c)%nat ->
  exec command client ev c <> ExecReturned spawned.
Proof.
  intros Hwg. unfold exec.
  set (runs := map _ _).
  assert (Hle : (length (List.filter (fun r => is_panic r.1) runs)
                 <= length (exec_stack c command))%nat).
  { etransitivity; [apply List.filter_length_le|]. unfold runs. now rewrite length_map. }
  destruct (_ && _); [discriminate|].
  destruct (_ =? 0)%nat eqn:E; [|discriminate].
  apply Nat.eqb_eq in E. lia.
Qed.

Lemma exec_never_returns_after_hang_witness :
  let c := mkCaller ∅ ∅ 1 in
  let client := mkClient (mkConfig "irc.example.org" "" "bot" "bot" "" false 0 true)
                         c None [] [] in
  exec "PING" client (mkEvent "PING" [] "x" false) c <> ExecReturned [].
Proof.
  cbv zeta. apply exec_never_returns_after_hang. cbn. lia.
Defined.

(* --------------------------------------------------------------------- *)
(** ** How [Connect] ends                                                 *)
(* --------------------------------------------------------------------- *)

Section ConnectOutcome.
Context {X : Externals}.


End ConnectOutcome.
